(** * Key Points Maker: the text helpers and the document transform of app.py

    A shallow embedding of [src/app.py].  A Python [str] is a list of code
    points; the interpreter's character database ([str.isalpha],
    [str.isspace], [str.lower], [str.upper]) is an interface, with one
    instance that gives CPython's values on ASCII and on a few other code
    points.  Subscripts may raise, so the functions live in a small monad
    that carries the outcome and the list of subscripts evaluated. *)

From Stdlib Require Import ZArith List Bool String Ascii Lia.
From stdpp Require Import base decidable option list gmap strings.

Local Open Scope Z_scope.

(** ** Python strings *)

(** A [str] is its sequence of code points. *)
Abbreviation pystr := (list Z).

(** An ASCII literal of the source. *)
Definition lit (s : string) : pystr :=
  map (fun a => Z.of_nat (nat_of_ascii a)) (list_ascii_of_string s).
Arguments lit : simpl never.

(** [len(x)] *)
Definition len {A} (l : list A) : Z := Z.of_nat (length l).

(** [x or ''] of the source: [None] and the empty string both give the
    empty string. *)
Definition or_empty (x : option pystr) : pystr :=
  match x with
  | Some s => s
  | None => []
  end.

(** Iterating over a [str], and [list(s)]: its one-character strings. *)
Definition chars_of (s : pystr) : list pystr := map (fun c => [c]) s.

(** [''.join(parts)] *)
Definition join (parts : list pystr) : pystr := concat parts.

(** [x in (a, b, ...)] and [x in {a, b, ...}] on strings: equality with one
    of the members. *)
Definition str_in (x : pystr) (members : list pystr) : bool :=
  existsb (fun m => bool_decide (x = m)) members.
Arguments str_in : simpl never.

(** [s.startswith(p)] *)
Fixpoint startswith (s p : pystr) : bool :=
  match p, s with
  | [], _ => true
  | _ :: _, [] => false
  | b :: p', a :: s' => bool_decide (a = b) && startswith s' p'
  end.

(** [s.endswith(p)] *)
Definition endswith (s p : pystr) : bool := startswith (rev s) (rev p).

(** [needle in hay] on strings: [needle] occurs in [hay] as a substring. *)
Fixpoint contains (hay needle : pystr) : bool :=
  startswith hay needle ||
  match hay with
  | [] => false
  | _ :: hay' => contains hay' needle
  end.

(** [s[:stop]]: a negative [stop] counts from the end, and the bound is
    clamped to the string, so a slice never raises. *)
Definition slice_to {A} (s : list A) (stop : Z) : list A :=
  let stop' := if stop <? 0 then Z.max 0 (stop + len s) else stop in
  firstn (Z.to_nat stop') s.

(** ** The character database of the interpreter *)

Class Unicode := {
  (** [ch.isalpha()] of the one-character string [ch] *)
  char_isalpha : Z -> bool;
  (** [ch.isspace()] of the one-character string [ch] *)
  char_isspace : Z -> bool;
  (** [s.lower()] *)
  lower : pystr -> pystr;
  (** [s.upper()] *)
  upper : pystr -> pystr
}.

Section Strings.
Context {U : Unicode}.

(** [s.isalpha()]: at least one character, and all of them letters. *)
Definition isalpha (s : pystr) : bool :=
  match s with
  | [] => false
  | _ => forallb char_isalpha s
  end.

(** [s.lstrip()] *)
Fixpoint lstrip (s : pystr) : pystr :=
  match s with
  | [] => []
  | c :: s' => if char_isspace c then lstrip s' else s
  end.

(** [s.rstrip()] *)
Definition rstrip (s : pystr) : pystr := rev (lstrip (rev s)).

(** [s.strip()] *)
Definition strip (s : pystr) : pystr := lstrip (rstrip s).

End Strings.

(** ** Outcomes, exceptions and the trace of subscripts *)

Inductive exn := IndexError | KeyError.

(** One evaluation of [x[index]] on a sequence of length [seq_len]. *)
Record access := Access { seq_len : Z; index : Z }.

Inductive outcome (A : Type) :=
| Ok (a : A)
| Raise (e : exn)
| OutOfFuel.
Arguments Ok {A} a.
Arguments Raise {A} e.
Arguments OutOfFuel {A}.

Definition Py (A : Type) : Type := outcome A * list access.

Definition ret {A} (a : A) : Py A := (Ok a, []).
Definition raise {A} (e : exn) : Py A := (Raise e, []).
Definition out_of_fuel {A} : Py A := (OutOfFuel, []).

Definition bind {A B} (m : Py A) (f : A -> Py B) : Py B :=
  match m with
  | (Ok a, t) => let '(r, t') := f a in (r, t ++ t')
  | (Raise e, t) => (Raise e, t)
  | (OutOfFuel, t) => (OutOfFuel, t)
  end.

Notation "x <- m ;; k" := (bind m (fun x => k))
  (at level 100, m at next level, right associativity).

Definition result {A} (m : Py A) : outcome A := fst m.
Definition trace {A} (m : Py A) : list access := snd m.

(** An access is in bounds when Python accepts the index. *)
Definition in_bounds (a : access) : Prop :=
  - seq_len a <= index a < seq_len a.

(** [x[i]]: negative indices count from the end; out of range raises
    [IndexError].  Every evaluation is recorded. *)
Definition getitem {A} (x : list A) (i : Z) : Py A :=
  let j := if i <? 0 then i + len x else i in
  (match (if j <? 0 then None else x !! Z.to_nat j) with
   | Some a => Ok a
   | None => Raise IndexError
   end, [Access (len x) i]).

(** [x[i] = v] on a list *)
Definition setitem {A} (x : list A) (i : Z) (v : A) : Py (list A) :=
  let j := if i <? 0 then i + len x else i in
  (if (0 <=? j) && (j <? len x) then Ok (<[Z.to_nat j := v]> x)
   else Raise IndexError, [Access (len x) i]).

Arguments getitem : simpl never.
Arguments setitem : simpl never.

(** [s[i]] on a [str] is a one-character string. *)
Definition str_getitem (s : pystr) (i : Z) : Py pystr :=
  c <- getitem s i ;; ret [c].

(** ** Text helpers *)

Section TextHelpers.
Context {U : Unicode}.

Definition sentence_marks : list pystr :=
  [lit "."; lit "!"; lit "?"; lit ":"].

(** The [while i < n] loop of [to_sentence_case]; [fuel] bounds the number
    of iterations. *)
Fixpoint sentence_loop (fuel : nat) (n : Z) (chars : list pystr)
    (cap_next : bool) (i : Z) : Py (list pystr) :=
  if i <? n then
    match fuel with
    | O => out_of_fuel
    | S fuel' =>
        ch <- getitem chars i ;;
        if cap_next && isalpha ch then
          chars' <- setitem chars i (upper ch) ;;
          sentence_loop fuel' n chars' false (i + 1)
        else if str_in ch sentence_marks then
          sentence_loop fuel' n chars true (i + 1)
        else
          sentence_loop fuel' n chars cap_next (i + 1)
    end
  else ret chars.

Definition to_sentence_case (text : option pystr) : Py pystr :=
  let s := or_empty text in
  let lowered :=
    join (map (fun ch => if isalpha ch then lower ch else ch) (chars_of s)) in
  let chars := chars_of lowered in
  let n := len chars in
  chars' <- sentence_loop (Z.to_nat n) n chars true 0 ;;
  ret (join chars').

Definition terminal : list pystr := [lit "."; lit "!"; lit "?"].

(** The four members of [closing_quotes], as the source file has them: the
    two straight quotes, and two strings of three code points each
    (U+201A U+00C4 U+00F9 and U+201A U+00C4 U+00F4). *)
Definition closing_quotes : list pystr :=
  [[34]; [39]; [8218; 196; 249]; [8218; 196; 244]].

Definition ensure_terminal_period (s0 : option pystr) : Py pystr :=
  let s := rstrip (or_empty s0) in
  if bool_decide (s = []) then ret s
  else
    last <- str_getitem s (-1) ;;
    if str_in last terminal then ret s
    else if str_in last closing_quotes then
      ended <- (if 2 <=? len s
                then prev <- str_getitem s (-2) ;; ret (str_in prev terminal)
                else ret false) ;;
      if (ended : bool) then ret s
      else ret (slice_to s (-1) ++ lit "." ++ last)
    else ret (s ++ lit ".").

End TextHelpers.

(** ** ASCII

    What [isalpha], [lower] and [upper] do on the code points below 128. *)

Definition ascii_isalpha (c : Z) : bool :=
  ((65 <=? c) && (c <=? 90)) || ((97 <=? c) && (c <=? 122)).

Definition is_ascii (c : Z) : bool := (0 <=? c) && (c <? 128).

Definition ascii_lower (c : Z) : Z :=
  if (65 <=? c) && (c <=? 90) then c + 32 else c.

Definition ascii_upper (c : Z) : Z :=
  if (97 <=? c) && (c <=? 122) then c - 32 else c.

(** ** A fragment of CPython's character database

    Exact on the code points below 128, on U+00DF (sharp s), U+0130
    (capital I with dot above), U+0307 (combining dot above), the curly
    quotes U+2018 to U+201D and the white space characters; other code
    points are taken as caseless non-letters and are not used below. *)

Definition ucd_isalpha (c : Z) : bool :=
  ascii_isalpha c || (c =? 223) || (c =? 304).

Definition ucd_isspace (c : Z) : bool :=
  ((9 <=? c) && (c <=? 13)) || ((28 <=? c) && (c <=? 32)) ||
  (c =? 133) || (c =? 160) || (c =? 5760) ||
  ((8192 <=? c) && (c <=? 8202)) || (c =? 8232) || (c =? 8233) ||
  (c =? 8239) || (c =? 8287) || (c =? 12288).

Definition ucd_lower_char (c : Z) : pystr :=
  if c =? 304 then [105; 775] else [ascii_lower c].

Definition ucd_upper_char (c : Z) : pystr :=
  if c =? 223 then [83; 83] else [ascii_upper c].

Definition ucd : Unicode := {|
  char_isalpha := ucd_isalpha;
  char_isspace := ucd_isspace;
  lower := fun s => concat (map ucd_lower_char s);
  upper := fun s => concat (map ucd_upper_char s)
|}.

(** ** Heading levels *)

Section Classifier.
Context {U : Unicode}.

Definition guess_heading_level (style_name text : option pystr) : Z :=
  let style := strip (lower (or_empty style_name)) in
  let t := strip (or_empty text) in
  if bool_decide (t = []) then 0
  else if contains style (lit "heading 2") || bool_decide (style = lit "h2")
  then 1
  else if contains style (lit "heading 3") || bool_decide (style = lit "h3")
  then 2
  else if contains style (lit "heading 4") || bool_decide (style = lit "h4")
  then 3
  else if contains style (lit "heading 5") || bool_decide (style = lit "h5")
  then 4
  else 0.

End Classifier.

(** ** Documents

    A document is its sequence of paragraphs.  Of a paragraph the model
    keeps the style name, the runs with their character formatting, the
    paragraph spacing and the [w:ind] element.  Page margins and the style
    table of the output document are left out: no paragraph depends on
    them. *)

Record Run := {
  run_text : pystr;
  bold : option bool;
  underline : option bool;
  font_name : option pystr;
  font_size : option Z            (* points *)
}.

Record Paragraph := {
  style : option pystr;           (* [None]: the default style *)
  runs : list Run;
  line_spacing : option Z;        (* [Some 1] is 1.0 *)
  space_before : option Z;        (* points *)
  space_after : option Z;         (* points *)
  ind : option (Z * Z)            (* left and hanging, in twips *)
}.

#[global] Instance Run_eq_dec : EqDecision Run.
Proof. solve_decision. Defined.
#[global] Instance Paragraph_eq_dec : EqDecision Paragraph.
Proof. solve_decision. Defined.

Abbreviation Document := (list Paragraph).

(** [p.add_run(text)] on a fresh run *)
Definition plain_run (text : pystr) : Run :=
  {| run_text := text; bold := None; underline := None;
     font_name := None; font_size := None |}.

(** [doc.add_paragraph(text, style)]: a run is added only for a non-empty
    text. *)
Definition new_paragraph (text : pystr) (sty : option pystr) : Paragraph :=
  {| style := sty;
     runs := if bool_decide (text = []) then [] else [plain_run text];
     line_spacing := None; space_before := None; space_after := None;
     ind := None |}.

(** [p.text] *)
Definition paragraph_text (p : Paragraph) : pystr :=
  join (map run_text (runs p)).

(** The three assignments to [paragraph_format] that every helper makes. *)
Definition single_spaced (p : Paragraph) : Paragraph :=
  {| style := style p; runs := runs p;
     line_spacing := Some 1; space_before := Some 0; space_after := Some 0;
     ind := ind p |}.

Definition set_runs (p : Paragraph) (rs : list Run) : Paragraph :=
  {| style := style p; runs := rs;
     line_spacing := line_spacing p; space_before := space_before p;
     space_after := space_after p; ind := ind p |}.

(** [r.font.name = 'Arial'; r.font.size = Pt(10)] *)
Definition arial10 (r : Run) : Run :=
  {| run_text := run_text r; bold := bold r; underline := underline r;
     font_name := Some (lit "Arial"); font_size := Some 10 |}.

Definition _set_xml_indent (p : Paragraph) (left_twips hanging_twips : Z)
    : Paragraph :=
  {| style := style p; runs := runs p;
     line_spacing := line_spacing p; space_before := space_before p;
     space_after := space_after p; ind := Some (left_twips, hanging_twips) |}.

(** The spacer paragraph: a no-break space, single spaced. *)
Definition spacer : Paragraph := single_spaced (new_paragraph [160] None).

Definition _add_visible_blank_line (doc : Document) : Document :=
  doc ++ [spacer].

(** The source sets the attributes of a paragraph after [add_paragraph] has
    put it into the document; the model builds the paragraph and appends it
    in its final state. *)
Section Renderers.
Context {U : Unicode}.

Definition add_heading (out : Document) (text : option pystr) : Py Document :=
  let p := single_spaced (new_paragraph [] None) in
  let r := {| run_text := upper (or_empty text); bold := Some true;
              underline := Some true;
              font_name := Some (lit "Arial"); font_size := Some 10 |} in
  ret (_add_visible_blank_line (out ++ [set_runs p (runs p ++ [r])])).

Definition add_subheading_all_caps (out : Document) (text : option pystr)
    : Py Document :=
  let p := single_spaced (new_paragraph [] None) in
  let r := {| run_text := upper (or_empty text); bold := Some false;
              underline := Some true;
              font_name := Some (lit "Arial"); font_size := Some 10 |} in
  ret (_add_visible_blank_line (out ++ [set_runs p (runs p ++ [r])])).

(** [if p.runs: r = p.runs[0]; r.font.name = ...; r.font.size = ...] *)
Definition format_first_run (p : Paragraph) : Py Paragraph :=
  if bool_decide (runs p = []) then ret p
  else
    r <- getitem (runs p) 0 ;;
    ret (set_runs p (<[0%nat := arial10 r]> (runs p))).

Definition add_bullet (out : Document) (text : option pystr)
    (indent add_period : bool) : Py Document :=
  formatted <- to_sentence_case text ;;
  formatted <- (if add_period then ensure_terminal_period (Some formatted)
                else ret formatted) ;;
  let style_name :=
    if indent then lit "List Bullet 2" else lit "List Bullet" in
  let p := single_spaced (new_paragraph formatted (Some style_name)) in
  p <- format_first_run p ;;
  ret (_add_visible_blank_line (out ++ [p])).

Definition add_h5_bullet (out : Document) (text : option pystr)
    : Py Document :=
  inner <- to_sentence_case text ;;
  formatted <- ensure_terminal_period (Some inner) ;;
  let p := single_spaced (new_paragraph formatted (Some (lit "H5Subbullet"))) in
  p <- format_first_run p ;;
  let p := _set_xml_indent p 1080 360 in
  ret (_add_visible_blank_line (out ++ [p])).

End Renderers.

(** ** The transform *)

(** A paragraph of the source document: [para.text] and the name of
    [para.style] ([None] when the style has no name). *)
Record SourceParagraph := {
  text : option pystr;
  style_name : option pystr
}.

(** [getattr(para.style, 'name', '')] *)
Definition style_name_or_empty (para : SourceParagraph) : option pystr :=
  Some (or_empty (style_name para)).

(** [counts[key] += 1] *)
Definition increment (counts : gmap string Z) (key : string)
    : Py (gmap string Z) :=
  match counts !! key with
  | Some v => ret (<[key := v + 1]> counts)
  | None => raise KeyError
  end.

(** [sum(counts.values())] *)
Definition sum_values (counts : gmap string Z) : Z :=
  map_fold (fun _ v acc => v + acc) 0 counts.

Section Transform.
Context {U : Unicode}.

(** The body of [for para in src.paragraphs], on the state [(out, counts)]. *)
Definition transform_step (add_period_to_h4 : bool)
    (st : Document * gmap string Z) (para : SourceParagraph)
    : Py (Document * gmap string Z) :=
  let '(out, counts) := st in
  let text := strip (or_empty (text para)) in
  if bool_decide (text = []) then ret (out, counts)
  else
    let level := guess_heading_level (style_name_or_empty para) (Some text) in
    if level =? 1 then
      out <- add_heading out (Some text) ;;
      counts <- increment counts "H2" ;; ret (out, counts)
    else if level =? 2 then
      out <- add_subheading_all_caps out (Some text) ;;
      counts <- increment counts "H3" ;; ret (out, counts)
    else if level =? 3 then
      out <- add_bullet out (Some text) true add_period_to_h4 ;;
      counts <- increment counts "H4" ;; ret (out, counts)
    else if level =? 4 then
      out <- add_h5_bullet out (Some text) ;;
      counts <- increment counts "H5" ;; ret (out, counts)
    else ret (out, counts).

Fixpoint for_each_paragraph (add_period_to_h4 : bool)
    (paragraphs : list SourceParagraph) (st : Document * gmap string Z)
    : Py (Document * gmap string Z) :=
  match paragraphs with
  | [] => ret st
  | para :: rest =>
      st' <- transform_step add_period_to_h4 st para ;;
      for_each_paragraph add_period_to_h4 rest st'
  end.

Definition transform_docx (src : list SourceParagraph)
    (add_period_to_h4 : bool) : Py (Document * gmap string Z) :=
  let out : Document := [] in
  let counts : gmap string Z :=
    <["H2" := 0]> (<["H3" := 0]> (<["H4" := 0]> (<["H5" := 0]> ∅))) in
  for_each_paragraph add_period_to_h4 src (out, counts).

End Transform.

(** The rendered blocks of an output document: its paragraphs other than
    the spacers. *)
Definition rendered_blocks (out : Document) : list Paragraph :=
  filter (fun p => p ≠ spacer) out.

(** ** The name of the download *)

(** [os.path.splitext] belongs to the interpreter's library. *)
Class OsPath := {
  splitext : pystr -> pystr * pystr
}.

(** [s.rfind(c)] for a character [c]: the highest index, or -1. *)
Fixpoint rfind_from (i : Z) (s : pystr) (c : Z) (found : Z) : Z :=
  match s with
  | [] => found
  | a :: s' => rfind_from (i + 1) s' c (if a =? c then i else found)
  end.

Definition rfind (s : pystr) (c : Z) : Z := rfind_from 0 s c (-1).

(** [posixpath.splitext] as CPython's [genericpath._splitext] computes it:
    the extension starts at the last dot of the last path component, unless
    that component has only dots before it. *)
Definition posix_splitext (p : pystr) : pystr * pystr :=
  let sepIndex := rfind p 47 in
  let dotIndex := rfind p 46 in
  let leading :=
    firstn (Z.to_nat (dotIndex - (sepIndex + 1)))
           (skipn (Z.to_nat (sepIndex + 1)) p) in
  if (sepIndex <? dotIndex) && existsb (fun ch => negb (ch =? 46)) leading
  then (firstn (Z.to_nat dotIndex) p, skipn (Z.to_nat dotIndex) p)
  else (p, []).

Definition posixpath : OsPath := {| splitext := posix_splitext |}.

Section Download.
Context {U : Unicode} {P : OsPath}.

Definition out_name (uploaded_name : pystr) : pystr :=
  let base_name := rstrip (fst (splitext uploaded_name)) in
  if endswith (upper base_name) (lit "INPUT")
  then slice_to base_name (-5) ++ lit "OUTPUT.docx"
  else base_name ++ lit "_OUTPUT.docx".

End Download.

(** ** The page

    What the script does once a file is uploaded.  Reading the upload into
    a document and saving the output to bytes are left to the library: the
    model starts from the paragraphs of the source document and ends with
    what the page shows. *)

Inductive Shown :=
| Warning                                   (* [st.warning]: nothing found *)
| Download (counts : gmap string Z) (doc : Document) (file_name : pystr)
                                            (* [st.success] and the button *)
| Error (e : exn).                          (* [st.error], then [st.stop] *)

(** [try: body / except Exception as e: handler(e)] *)
Definition try_except {A} (body : Py A) (handler : exn -> Py A) : Py A :=
  match body with
  | (Raise e, t) => let '(r, t') := handler e in (r, t ++ t')
  | _ => body
  end.

Section Page.
Context {U : Unicode} {P : OsPath}.

Definition page (uploaded_name : pystr) (src_doc : list SourceParagraph)
    (add_period_to_h4 : bool) : Py Shown :=
  try_except
    (st <- transform_docx src_doc add_period_to_h4 ;;
     let '(out_doc, counts) := st in
     let total := sum_values counts in
     if total =? 0 then ret Warning
     else ret (Download counts out_doc (out_name uploaded_name)))
    (fun e => ret (Error e)).

End Page.

(** * The vocabulary of the properties *)

(** ** Sentence case *)

Section SentenceCaseWords.
Context {U : Unicode}.

(** The walk of the loop as a recursion over the characters still to be
    visited: the flag is consumed by the letter that is capitalised, set by
    a mark, and kept by every other character. *)
Fixpoint walk (cap_next : bool) (chars : list pystr) : list pystr :=
  match chars with
  | [] => []
  | ch :: rest =>
      if cap_next && isalpha ch then upper ch :: walk false rest
      else if str_in ch sentence_marks then ch :: walk true rest
      else ch :: walk cap_next rest
  end.

(** [lowered] of the source. *)
Definition lowered (s : pystr) : pystr :=
  join (map (fun ch => if isalpha ch then lower ch else ch) (chars_of s)).

Definition is_mark (ch : pystr) : bool := str_in ch sentence_marks.

(** The characters that follow the last mark of [chars] (all of them when
    there is no mark). *)
Definition since_last_mark (chars : list pystr) : list pystr :=
  fold_left (fun acc ch => if is_mark ch then [] else acc ++ [ch]) chars [].

(** Position [i] holds the first letter after the start of the string or
    after a mark. *)
Definition opens_sentence (chars : list pystr) (i : nat) : bool :=
  match chars !! i with
  | Some ch =>
      isalpha ch && negb (existsb isalpha (since_last_mark (take i chars)))
  | None => false
  end.

(** The sentence case of [s] in the words of the specification: every letter
    is lower-cased, then exactly the letters that open a sentence are
    upper-cased. *)
Definition sentence_case_spec (s : pystr) : pystr :=
  let chars := chars_of (lowered s) in
  join (imap (fun i ch => if opens_sentence chars i then upper ch else ch)
             chars).

(** No mark is a letter. *)
Definition marks_not_letters : Prop :=
  forallb (fun m => negb (isalpha m)) sentence_marks = true.

(** *** Characters with one-character case forms *)

Definition one_char (x : pystr) : bool :=
  match x with
  | [_] => true
  | _ => false
  end.

(** The lower-case form that the source gives the character [c], when it
    is one character. *)
Definition lower1 (c : Z) : Z :=
  hd c (if char_isalpha c then lower [c] else [c]).

(** The upper-case form of [d], when it is one character. *)
Definition upper1 (d : Z) : Z := hd d (upper [d]).

(** A letter [c] has a one-character lower-case form. *)
Definition lower_is_char (c : Z) : bool :=
  if char_isalpha c then one_char (lower [c]) else true.

(** A letter [d] has a one-character upper-case form. *)
Definition upper_is_char (d : Z) : bool :=
  if char_isalpha d then one_char (upper [d]) else true.

(** Every letter of [s] has a one-character lower-case form, and every
    letter of the lower-cased string a one-character upper-case form. *)
Definition single_cased (s : pystr) : bool :=
  forallb lower_is_char s && forallb upper_is_char (lowered s).

(** A letter [d] is its own lower-case form, and its upper-case form is one
    letter, whose lower-case form is [d]. *)
Definition case_stable (d : Z) : bool :=
  if char_isalpha d then
    bool_decide (lower [d] = [d])
    && match upper [d] with
       | [u] => char_isalpha u && bool_decide (lower [u] = [d])
       | _ => false
       end
  else true.

(** Every letter of [s] has a one-character lower-case form, and every
    letter of the lower-cased string is stable. *)
Definition stably_cased (s : pystr) : bool :=
  forallb lower_is_char s && forallb case_stable (lowered s).

(** The loop on the code points of a string with one-character forms. *)
Fixpoint char_walk (cap_next : bool) (s : pystr) : pystr :=
  match s with
  | [] => []
  | d :: rest =>
      if cap_next && char_isalpha d then upper1 d :: char_walk false rest
      else if str_in [d] sentence_marks then d :: char_walk true rest
      else d :: char_walk cap_next rest
  end.

(** [x] is [c] up to the case of a letter: a character other than a letter
    is kept, a letter becomes its lower-case form or the upper-case form of
    that. *)
Definition case_variant (c x : Z) : Prop :=
  if char_isalpha c then lower [c] = [x] \/ upper (lower [c]) = [x]
  else x = c.

End SentenceCaseWords.

(** *** The letters that the loop capitalises *)

Section SentenceOpeners.
Context {U : Unicode}.

(** The characters that the walk upper-cases: the letters that open a
    sentence. *)
Fixpoint capitalised (cap_next : bool) (chars : list pystr) : list pystr :=
  match chars with
  | [] => []
  | ch :: rest =>
      if cap_next && isalpha ch then ch :: capitalised false rest
      else if str_in ch sentence_marks then capitalised true rest
      else capitalised cap_next rest
  end.

(** The characters that the walk leaves as they are. *)
Fixpoint kept (cap_next : bool) (chars : list pystr) : list pystr :=
  match chars with
  | [] => []
  | ch :: rest =>
      if cap_next && isalpha ch then kept false rest
      else if str_in ch sentence_marks then ch :: kept true rest
      else ch :: kept cap_next rest
  end.

(** The flag at the end of the walk. *)
Fixpoint flag_after (cap_next : bool) (chars : list pystr) : bool :=
  match chars with
  | [] => cap_next
  | ch :: rest =>
      if cap_next && isalpha ch then flag_after false rest
      else if str_in ch sentence_marks then flag_after true rest
      else flag_after cap_next rest
  end.

(** Every letter of [s] has a one-character lower-case form, and every
    letter that the loop capitalises a one-character upper-case form. *)
Definition openers_single_cased (s : pystr) : bool :=
  forallb lower_is_char s
  && forallb (fun d => one_char (upper d))
             (capitalised true (chars_of (lowered s))).

(** Lower-casing leaves [ch] as it is. *)
Definition lower_fixed (ch : pystr) : bool := bool_decide (lowered ch = ch).

(** The function returns [u] unchanged, and its flag is off at the end. *)
Definition recased_unchanged (u : pystr) : bool :=
  bool_decide (join (walk true (chars_of (lowered u))) = u)
  && negb (flag_after true (chars_of (lowered u))).

(** Lower-casing leaves the characters that the loop keeps as they are, and
    the function leaves the upper-case form of every letter that the loop
    capitalises unchanged. *)
Definition recasing_stable (s : pystr) : bool :=
  forallb lower_fixed (kept true (chars_of (lowered s)))
  && forallb (fun d => recased_unchanged (upper d))
             (capitalised true (chars_of (lowered s))).

End SentenceOpeners.

(** The words strasse and gross written with the sharp s (U+00DF), in two
    sentences: the sharp s opens no sentence. *)
Definition sharp_s_inside : pystr :=
  [115; 116; 114; 97; 223; 101; 46; 32; 103; 114; 111; 223].

(** The letters of the fragment. *)
Definition ucd_letters : list Z :=
  223 :: 304 :: map Z.of_nat (seq 65 26) ++ map Z.of_nat (seq 97 26).

(** ** ASCII strings *)

(** A character database treats ASCII as every Python does. *)
Definition ascii_conformant (U : Unicode) : bool :=
  forallb (fun c =>
             Bool.eqb (char_isalpha c) (ascii_isalpha c)
             && bool_decide (lower [c] = [ascii_lower c])
             && bool_decide (upper [c] = [ascii_upper c]))
          (seqZ 0 128).

(** The loop on the code points of an ASCII string. *)
Fixpoint ascii_walk (cap_next : bool) (s : pystr) : pystr :=
  match s with
  | [] => []
  | c :: rest =>
      if cap_next && ascii_isalpha c then ascii_upper c :: ascii_walk false rest
      else if str_in [c] sentence_marks then c :: ascii_walk true rest
      else c :: ascii_walk cap_next rest
  end.

(** ** Terminal periods *)

(** The runs of the function on a string [s] already stripped on the
    right: the value returned and the subscripts evaluated, case by case. *)
Inductive etp_run (s : pystr) : pystr -> list access -> Prop :=
| run_empty :
    s = [] ->
    etp_run s s []
| run_terminal body c :
    s = body ++ [c] ->
    str_in [c] terminal = true ->
    etp_run s s [Access (len s) (-1)]
| run_plain body c :
    s = body ++ [c] ->
    str_in [c] terminal = false ->
    str_in [c] closing_quotes = false ->
    etp_run s (s ++ lit ".") [Access (len s) (-1)]
| run_lone_quote c :
    s = [c] ->
    str_in [c] terminal = false ->
    str_in [c] closing_quotes = true ->
    etp_run s (lit "." ++ [c]) [Access (len s) (-1)]
| run_quote_ended body p c :
    s = body ++ [p; c] ->
    str_in [c] terminal = false ->
    str_in [c] closing_quotes = true ->
    str_in [p] terminal = true ->
    etp_run s s [Access (len s) (-1); Access (len s) (-2)]
| run_quote_insert body p c :
    s = body ++ [p; c] ->
    str_in [c] terminal = false ->
    str_in [c] closing_quotes = true ->
    str_in [p] terminal = false ->
    etp_run s (body ++ [p] ++ lit "." ++ [c])
            [Access (len s) (-1); Access (len s) (-2)].

(** What the result of the function ends with: a terminator, or a member
    of [closing_quotes] that follows a terminator. *)
Definition ends_sentence (r : pystr) : Prop :=
  exists body c,
    r = body ++ [c]
    /\ (str_in [c] terminal = true
        \/ (str_in [c] closing_quotes = true
            /\ exists body' p,
                 body = body' ++ [p] /\ str_in [p] terminal = true)).

(** He said, then the word stop between the curly quotes U+201C and
    U+201D. *)
Definition curly_quoted : pystr :=
  lit "He said " ++ [8220] ++ lit "stop" ++ [8221].

(** ** Heading levels *)

Inductive HeadingLevel := NoLevel | H2 | H3 | H4 | H5.

(** The integer that [guess_heading_level] returns for a level. *)
Definition level_code (l : HeadingLevel) : Z :=
  match l with
  | NoLevel => 0
  | H2 => 1
  | H3 => 2
  | H4 => 3
  | H5 => 4
  end.

(** The markers, tried in the order H2, H3, H4, H5: the label contains the
    long marker or is the short one. *)
Definition classify_label (label : pystr) : HeadingLevel :=
  if contains label (lit "heading 2") || bool_decide (label = lit "h2")
  then H2
  else if contains label (lit "heading 3") || bool_decide (label = lit "h3")
  then H3
  else if contains label (lit "heading 4") || bool_decide (label = lit "h4")
  then H4
  else if contains label (lit "heading 5") || bool_decide (label = lit "h5")
  then H5
  else NoLevel.

Section ClassifyWords.
Context {U : Unicode}.

(** The classifier in the words of the specification: the markers are
    matched against the label without regard to case. *)
Definition classify_stated (styleLabel text : option pystr) : HeadingLevel :=
  if bool_decide (strip (or_empty text) = []) then NoLevel
  else classify_label (lower (or_empty styleLabel)).

(** The same, on the label with the white space around it removed. *)
Definition classify_trimmed (styleLabel text : option pystr) : HeadingLevel :=
  if bool_decide (strip (or_empty text) = []) then NoLevel
  else classify_label (strip (lower (or_empty styleLabel))).

End ClassifyWords.

(** ** Blocks and counts *)

(** The counts hold the four keys, and their values add up to [n]. *)
Definition counted (counts : gmap string Z) (n : Z) : Prop :=
  sum_values counts = n
  /\ exists h2 h3 h4 h5,
       counts !! "H2"%string = Some h2 /\ counts !! "H3"%string = Some h3
       /\ counts !! "H4"%string = Some h4 /\ counts !! "H5"%string = Some h5
       /\ h2 + h3 + h4 + h5 = n.

(** Each renderer appends one paragraph that is no spacer, and a spacer. *)
Definition appends_block (m : Py Document) (out : Document) : Prop :=
  exists p, result m = Ok (out ++ [p; spacer]) /\ p ≠ spacer.

(** The state of the loop after blocks for [n] paragraphs. *)
Definition state_ok (st : Document * gmap string Z) (n : Z) : Prop :=
  len (rendered_blocks (fst st)) = n /\ counted (snd st) n.

Section TransformWords.
Context {U : Unicode}.

(** A source paragraph that has a block in the output: its stripped text is
    not empty and its level is not 0. *)
Definition renders (para : SourceParagraph) : Prop :=
  strip (or_empty (text para)) ≠ []
  /\ guess_heading_level (style_name para) (text para) ≠ 0.

#[global] Instance renders_dec para : Decision (renders para).
Proof. unfold renders. apply _. Defined.

End TransformWords.

Definition example_source : list SourceParagraph :=
  [ {| text := Some (lit "INTRO"); style_name := Some (lit "Heading 2") |};
    {| text := Some []; style_name := Some (lit "Heading 3") |};
    {| text := Some (lit "point one"); style_name := Some (lit "Heading 4") |};
    {| text := Some (lit "sub point"); style_name := Some (lit "Heading 5") |} ].

(** ** The blocks of a paragraph *)

(** The paragraph that [add_heading] ([is_bold]) and
    [add_subheading_all_caps] (not [is_bold]) make for the text [shown]. *)
Definition heading_paragraph (is_bold : bool) (shown : pystr) : Paragraph :=
  {| style := None;
     runs := [ {| run_text := shown; bold := Some is_bold;
                  underline := Some true;
                  font_name := Some (lit "Arial"); font_size := Some 10 |} ];
     line_spacing := Some 1; space_before := Some 0; space_after := Some 0;
     ind := None |}.

(** The paragraph that [add_bullet] and [add_h5_bullet] make for the text
    [shown], in the style [sty]. *)
Definition bullet_paragraph (sty shown : pystr) (indent : option (Z * Z))
    : Paragraph :=
  {| style := Some sty;
     runs := if bool_decide (shown = []) then []
             else [arial10 (plain_run shown)];
     line_spacing := Some 1; space_before := Some 0; space_after := Some 0;
     ind := indent |}.

(** The keys of the counts, by level. *)
Definition level_keys : list (Z * string) :=
  [(1, "H2"); (2, "H3"); (3, "H4"); (4, "H5")]%string.

Section BlockWords.
Context {U : Unicode}.

(** The block of a paragraph of level 1 to 4 with the stripped text [t]. *)
Inductive block_for (flag : bool) (t : pystr) : Z -> Paragraph -> Prop :=
| block_h2 :
    block_for flag t 1 (heading_paragraph true (upper t))
| block_h3 :
    block_for flag t 2 (heading_paragraph false (upper t))
| block_h4 cased shown :
    result (to_sentence_case (Some t)) = Ok cased ->
    result (if flag then ensure_terminal_period (Some cased) else ret cased)
    = Ok shown ->
    block_for flag t 3 (bullet_paragraph (lit "List Bullet 2") shown None)
| block_h5 cased shown :
    result (to_sentence_case (Some t)) = Ok cased ->
    result (ensure_terminal_period (Some cased)) = Ok shown ->
    block_for flag t 4
      (bullet_paragraph (lit "H5Subbullet") shown (Some (1080, 360))).

(** The level of a source paragraph. *)
Definition level_of (para : SourceParagraph) : Z :=
  guess_heading_level (style_name para) (text para).

(** The number of paragraphs of level [k]. *)
Definition count_level (k : Z) (src : list SourceParagraph) : Z :=
  len (filter (fun para => level_of para = k) src).

(** The output for a sequence of source paragraphs: for each paragraph of a
    level other than 0, in order, its block and a spacer. *)
Inductive renders_as (flag : bool)
    : list SourceParagraph -> Document -> Prop :=
| renders_nil :
    renders_as flag [] []
| renders_skip para rest out :
    level_of para = 0 ->
    renders_as flag rest out ->
    renders_as flag (para :: rest) out
| renders_block para rest out p :
    level_of para <> 0 ->
    block_for flag (strip (or_empty (text para))) (level_of para) p ->
    renders_as flag rest out ->
    renders_as flag (para :: rest) (p :: spacer :: out).

End BlockWords.

(** The counts hold the four keys. *)
Definition has_keys (counts : gmap string Z) : Prop :=
  forall k key, In (k, key) level_keys -> is_Some (counts !! key).

(** What every block has: single spacing, its run (if any) in Arial 10,
    and one of three styles, the indent going with the sub-bullet style. *)
Definition well_laid_out (p : Paragraph) : Prop :=
  (line_spacing p = Some 1 /\ space_before p = Some 0
   /\ space_after p = Some 0)
  /\ Forall (fun r => font_name r = Some (lit "Arial")
                      /\ font_size r = Some 10) (runs p)
  /\ ((style p = None /\ ind p = None)
      \/ (style p = Some (lit "List Bullet 2") /\ ind p = None)
      \/ (style p = Some (lit "H5Subbullet") /\ ind p = Some (1080, 360))).

(** The character [c] is none of the digits 2, 3, 4, 5. *)
Definition no_level_digit (c : Z) : bool :=
  negb ((50 <=? c) && (c <=? 53)).

(** * Properties *)

(** ** The monad *)

Lemma result_bind {A B} (m : Py A) (f : A -> Py B) a :
  result m = Ok a -> result (bind m f) = result (f a).
Proof.
  destruct m as [[a'| |] t]; simpl; intros E; try discriminate.
  injection E as ->. unfold result. simpl. now destruct (f a).
Qed.

Lemma len_app {A} (l k : list A) : len (l ++ k) = len l + len k.
Proof. unfold len. rewrite length_app. lia. Qed.

Lemma len_nonneg {A} (l : list A) : 0 <= len l.
Proof. unfold len. lia. Qed.

(** Reading and writing the element that follows a prefix. *)
Lemma getitem_middle {A} (done todo : list A) (x : A) :
  result (getitem (done ++ x :: todo) (len done)) = Ok x.
Proof.
  unfold getitem, result. simpl.
  pose proof (len_nonneg done) as Hn.
  destruct (len done <? 0) eqn:E; [apply Z.ltb_lt in E; lia |].
  rewrite E. unfold len. rewrite Nat2Z.id.
  now rewrite list_lookup_middle.
Qed.

Lemma setitem_middle {A} (done todo : list A) (x v : A) :
  result (setitem (done ++ x :: todo) (len done) v) = Ok (done ++ v :: todo).
Proof.
  unfold setitem, result. simpl.
  pose proof (len_nonneg done) as Hn.
  destruct (len done <? 0) eqn:E; [apply Z.ltb_lt in E; lia |].
  rewrite len_app.
  replace (0 <=? len done) with true by (symmetry; apply Z.leb_le; lia).
  replace (len done <? len done + len (x :: todo)) with true.
  2:{ symmetry. apply Z.ltb_lt. unfold len. simpl. lia. }
  simpl. f_equal. unfold len. rewrite Nat2Z.id.
  rewrite insert_app_r_alt by reflexivity.
  now rewrite Nat.sub_diag.
Qed.

(** ** [to_sentence_case] *)

Section SentenceCase.
Context {U : Unicode}.

Lemma sentence_loop_step (fuel : nat) n chars cap_next i :
  (i <? n) = true ->
  sentence_loop (S fuel) n chars cap_next i
  = (ch <- getitem chars i ;;
     if cap_next && isalpha ch then
       chars' <- setitem chars i (upper ch) ;;
       sentence_loop fuel n chars' false (i + 1)
     else if str_in ch sentence_marks then
       sentence_loop fuel n chars true (i + 1)
     else
       sentence_loop fuel n chars cap_next (i + 1)).
Proof. intros E. simpl. now rewrite E. Qed.

Lemma sentence_loop_walk (todo : list pystr) :
  forall (fuel : nat) (done : list pystr) (cap_next : bool),
    (length todo <= fuel)%nat ->
    result (sentence_loop fuel (len (done ++ todo)) (done ++ todo)
              cap_next (len done))
    = Ok (done ++ walk cap_next todo).
Proof.
  induction todo as [|ch rest IH]; intros fuel done cap Hfuel.
  - simpl walk. rewrite !app_nil_r.
    destruct fuel; simpl; rewrite Z.ltb_irrefl; reflexivity.
  - destruct fuel as [|fuel]; [simpl in Hfuel; lia |].
    assert (Hlt : (len done <? len (done ++ ch :: rest)) = true).
    { apply Z.ltb_lt. rewrite len_app. unfold len. simpl. lia. }
    rewrite sentence_loop_step by exact Hlt.
    rewrite (result_bind _ _ ch) by apply getitem_middle.
    assert (Hnext : forall v, len done + 1 = len (done ++ [v])).
    { intros v. rewrite len_app. reflexivity. }
    assert (Hlen : forall v,
               len (done ++ ch :: rest) = len ((done ++ [v]) ++ rest)).
    { intros v. rewrite !len_app. unfold len. simpl. lia. }
    assert (Hshape : forall (v : pystr) k,
               done ++ v :: k = (done ++ [v]) ++ k).
    { intros v k. now rewrite <- List.app_assoc. }
    simpl in Hfuel. cbn [walk].
    destruct (cap && isalpha ch).
    + rewrite (result_bind _ _ (done ++ upper ch :: rest))
        by apply setitem_middle.
      rewrite (Hlen (upper ch)), (Hnext (upper ch)), (Hshape (upper ch) rest).
      rewrite IH by lia. now rewrite <- (List.app_assoc done [_] (walk _ rest)).
    + destruct (str_in ch sentence_marks).
      * rewrite (Hlen ch), (Hnext ch), (Hshape ch rest).
        rewrite IH by lia. now rewrite <- (List.app_assoc done [_] (walk _ rest)).
      * rewrite (Hlen ch), (Hnext ch), (Hshape ch rest).
        rewrite IH by lia. now rewrite <- (List.app_assoc done [_] (walk _ rest)).
Qed.

(** The function returns for every input, with the walk of the lower-cased
    characters. *)
Lemma to_sentence_case_walk (text : option pystr) :
  result (to_sentence_case text)
  = Ok (join (walk true (chars_of (lowered (or_empty text))))).
Proof.
  unfold to_sentence_case. fold (lowered (or_empty text)).
  set (chars := chars_of (lowered (or_empty text))).
  rewrite (result_bind _ _ (walk true chars)); [reflexivity |].
  apply (sentence_loop_walk chars (Z.to_nat (len chars)) [] true).
  unfold len. rewrite Nat2Z.id. lia.
Qed.

End SentenceCase.

(** *** The walk, by positions *)

Section SentenceCaseSpec.
Context {U : Unicode}.

Lemma letter_not_mark (ch : pystr) :
  marks_not_letters -> isalpha ch = true -> is_mark ch = false.
Proof.
  unfold marks_not_letters, is_mark, str_in. intros Hm Ha.
  rewrite forallb_forall in Hm.
  destruct (existsb _ sentence_marks) eqn:E; [|reflexivity].
  apply existsb_exists in E as (m & Hin & Heq).
  apply bool_decide_eq_true in Heq. subst m.
  apply Hm in Hin. rewrite Ha in Hin. discriminate.
Qed.

Lemma since_last_mark_snoc (pre : list pystr) (ch : pystr) :
  since_last_mark (pre ++ [ch])
  = if is_mark ch then [] else since_last_mark pre ++ [ch].
Proof. unfold since_last_mark. now rewrite fold_left_app. Qed.

Lemma walk_positions (todo : list pystr) :
  marks_not_letters ->
  forall pre : list pystr,
    walk (negb (existsb isalpha (since_last_mark pre))) todo
    = imap (fun i ch =>
              if opens_sentence (pre ++ todo) (length pre + i)
              then upper ch else ch) todo.
Proof.
  intros Hm. induction todo as [|ch rest IH]; intros pre; [reflexivity |].
  cbn [walk imap].
  assert (Hopen : opens_sentence (pre ++ ch :: rest) (length pre + 0)
                  = isalpha ch
                    && negb (existsb isalpha (since_last_mark pre))).
  { unfold opens_sentence. rewrite Nat.add_0_r.
    rewrite list_lookup_middle by reflexivity.
    now rewrite take_app_length. }
  assert (Htail :
    imap ((fun i ch0 =>
             if opens_sentence (pre ++ ch :: rest) (length pre + i)
             then upper ch0 else ch0) ∘ S) rest
    = imap (fun i ch0 =>
              if opens_sentence ((pre ++ [ch]) ++ rest)
                                (length (pre ++ [ch]) + i)
              then upper ch0 else ch0) rest).
  { apply imap_ext. intros i x _. simpl.
    rewrite <- List.app_assoc. simpl. rewrite length_app. simpl.
    now replace (length pre + 1 + i)%nat with (length pre + S i)%nat by lia. }
  rewrite Hopen, Htail, <- IH, since_last_mark_snoc.
  rewrite (andb_comm (isalpha ch)).
  destruct (existsb isalpha (since_last_mark pre)) eqn:Epre; simpl.
  - change (is_mark ch) with (str_in ch sentence_marks).
    destruct (str_in ch sentence_marks); [reflexivity |].
    rewrite existsb_app, Epre. reflexivity.
  - destruct (isalpha ch) eqn:Ea.
    + rewrite (letter_not_mark ch Hm Ea).
      rewrite existsb_app. simpl. rewrite Ea, orb_true_r. reflexivity.
    + change (is_mark ch) with (str_in ch sentence_marks).
      destruct (str_in ch sentence_marks); [reflexivity |].
      rewrite existsb_app, Epre. simpl. rewrite Ea. reflexivity.
Qed.

Lemma walk_spec (s : pystr) :
  marks_not_letters ->
  join (walk true (chars_of (lowered s))) = sentence_case_spec s.
Proof.
  intros Hm. unfold sentence_case_spec.
  now rewrite (walk_positions _ Hm []).
Qed.

End SentenceCaseSpec.

(** *** Strings with one-character case forms *)

Section CharWalk.
Context {U : Unicode}.

Lemma isalpha_char (c : Z) : isalpha [c] = char_isalpha c.
Proof. simpl. apply andb_true_r. Qed.

Lemma one_char_hd (x : pystr) (c : Z) : one_char x = true -> x = [hd c x].
Proof. destruct x as [|a [|b x]]; simpl; intros E; now try discriminate. Qed.

Lemma lower1_spec (c : Z) :
  lower_is_char c = true ->
  (if char_isalpha c then lower [c] else [c]) = [lower1 c].
Proof.
  unfold lower_is_char, lower1. destruct (char_isalpha c); [|reflexivity].
  apply one_char_hd.
Qed.

Lemma upper1_spec (d : Z) :
  upper_is_char d = true -> char_isalpha d = true -> upper [d] = [upper1 d].
Proof.
  unfold upper_is_char, upper1. intros H E. rewrite E in H.
  now apply one_char_hd.
Qed.

Lemma lowered_cons (c : Z) (s : pystr) :
  lowered (c :: s)
  = (if char_isalpha c then lower [c] else [c]) ++ lowered s.
Proof. unfold lowered, join, chars_of. simpl. now rewrite andb_true_r. Qed.

Lemma lowered_chars (s : pystr) :
  forallb lower_is_char s = true -> lowered s = map lower1 s.
Proof.
  induction s as [|c s IH]; [reflexivity |]. simpl. intros H.
  apply andb_prop in H as [Hc Hs].
  now rewrite lowered_cons, (lower1_spec c Hc), (IH Hs).
Qed.

Lemma walk_chars (l : pystr) :
  forallb upper_is_char l = true ->
  forall cap_next, join (walk cap_next (chars_of l)) = char_walk cap_next l.
Proof.
  unfold join, chars_of. induction l as [|d l IH]; [reflexivity |].
  simpl. intros H cap. apply andb_prop in H as [Hd Hl].
  rewrite andb_true_r.
  destruct (cap && char_isalpha d) eqn:E; simpl.
  - apply andb_prop in E as [_ E].
    now rewrite (upper1_spec d Hd E), (IH Hl).
  - destruct (str_in [d] sentence_marks); simpl; now rewrite (IH Hl).
Qed.

(** On such a string the function is the walk of its code points. *)
Lemma to_sentence_case_chars (s : pystr) :
  single_cased s = true ->
  result (to_sentence_case (Some s))
  = Ok (char_walk true (map lower1 s)).
Proof.
  unfold single_cased. intros H. apply andb_prop in H as [Hl Hu].
  rewrite to_sentence_case_walk. simpl or_empty.
  rewrite (walk_chars _ Hu). now rewrite (lowered_chars s Hl).
Qed.

Lemma char_walk_length (l : pystr) :
  forall cap_next, length (char_walk cap_next l) = length l.
Proof.
  induction l as [|d l IH]; [reflexivity |]. simpl. intros cap.
  destruct (cap && char_isalpha d); simpl; [now rewrite IH |].
  destruct (str_in [d] sentence_marks); simpl; now rewrite IH.
Qed.

Lemma char_walk_case_variant (s : pystr) :
  forallb lower_is_char s = true ->
  forallb upper_is_char (map lower1 s) = true ->
  forall cap_next,
    Forall2 case_variant s (char_walk cap_next (map lower1 s)).
Proof.
  induction s as [|c s IH]; intros Hl Hu cap; [constructor |].
  simpl in Hl, Hu. apply andb_prop in Hl as [Hc Hs].
  apply andb_prop in Hu as [Hd Hrest].
  pose proof (lower1_spec c Hc) as Hlow.
  assert (Hkeep : case_variant c (lower1 c)).
  { unfold case_variant. destruct (char_isalpha c); [now left |].
    now injection Hlow as <-. }
  simpl.
  destruct (cap && char_isalpha (lower1 c)) eqn:E.
  - constructor; [|now apply IH].
    apply andb_prop in E as [_ E].
    unfold case_variant. destruct (char_isalpha c) eqn:Ec.
    + right. rewrite Hlow. now apply upper1_spec.
    + injection Hlow as Hlow. rewrite <- Hlow, Ec in E. discriminate E.
  - destruct (str_in [lower1 c] sentence_marks);
      (constructor; [exact Hkeep | now apply IH]).
Qed.

Lemma case_stable_upper (d : Z) :
  case_stable d = true -> upper_is_char d = true.
Proof.
  unfold case_stable, upper_is_char.
  destruct (char_isalpha d); [|reflexivity].
  intros H. apply andb_prop in H as [_ H].
  now destruct (upper [d]) as [|u [|v x]].
Qed.

Lemma case_stable_lower (d : Z) :
  case_stable d = true -> lower_is_char d = true /\ lower1 d = d.
Proof.
  unfold case_stable, lower_is_char, lower1.
  destruct (char_isalpha d); [|now split].
  intros H. apply andb_prop in H as [H _].
  apply bool_decide_eq_true in H. rewrite H. now split.
Qed.

Lemma case_stable_capital (d : Z) :
  case_stable d = true -> char_isalpha d = true ->
  lower_is_char (upper1 d) = true /\ lower1 (upper1 d) = d.
Proof.
  unfold case_stable, lower_is_char, lower1, upper1. intros H E.
  rewrite E in H. apply andb_prop in H as [_ H].
  destruct (upper [d]) as [|u [|v x]]; try discriminate H.
  apply andb_prop in H as [Hu H]. apply bool_decide_eq_true in H.
  simpl. rewrite Hu, H. now split.
Qed.

Lemma stably_single (s : pystr) :
  stably_cased s = true -> single_cased s = true.
Proof.
  unfold stably_cased, single_cased. intros H.
  apply andb_prop in H as [Hl Hs]. rewrite Hl. simpl.
  rewrite forallb_forall in *. intros d Hd. apply case_stable_upper. auto.
Qed.

(** The walk of a stable string keeps the lower-case forms, and its
    characters have one-character lower-case forms. *)
Lemma char_walk_stable (l : pystr) :
  forallb case_stable l = true ->
  forall cap_next,
    map lower1 (char_walk cap_next l) = l
    /\ forallb lower_is_char (char_walk cap_next l) = true.
Proof.
  induction l as [|d l IH]; intros H cap; [now split |].
  simpl in H. apply andb_prop in H as [Hd Hl]. simpl.
  destruct (case_stable_lower d Hd) as [Hlow Hfix].
  destruct (cap && char_isalpha d) eqn:E.
  - apply andb_prop in E as [_ E].
    destruct (case_stable_capital d Hd E) as [Hcap Hback].
    destruct (IH Hl false) as [IH1 IH2].
    simpl. now rewrite Hback, Hcap, IH1, IH2.
  - destruct (str_in [d] sentence_marks).
    + destruct (IH Hl true) as [IH1 IH2].
      simpl. now rewrite Hfix, Hlow, IH1, IH2.
    + destruct (IH Hl cap) as [IH1 IH2].
      simpl. now rewrite Hfix, Hlow, IH1, IH2.
Qed.

(** Applying the function to its result, on a stable string. *)
Lemma to_sentence_case_twice (s : pystr) :
  stably_cased s = true ->
  result (to_sentence_case (Some (char_walk true (map lower1 s))))
  = Ok (char_walk true (map lower1 s)).
Proof.
  intros H. pose proof H as H'. unfold stably_cased in H'.
  apply andb_prop in H' as [Hl Hs].
  rewrite (lowered_chars s Hl) in Hs.
  destruct (char_walk_stable _ Hs true) as [Hback Hchars].
  rewrite to_sentence_case_chars.
  - now rewrite Hback.
  - unfold single_cased. rewrite Hchars. simpl.
    rewrite (lowered_chars _ Hchars), Hback.
    rewrite forallb_forall in *. intros d Hd. apply case_stable_upper. auto.
Qed.

End CharWalk.

(** *** ASCII strings *)

Ltac case_bounds :=
  repeat match goal with
         | |- context [?a <=? ?b] => destruct (Z.leb_spec a b)
         | |- context [?a <? ?b] => destruct (Z.ltb_spec a b)
         | H : context [?a <=? ?b] |- _ => destruct (Z.leb_spec a b)
         | H : context [?a <? ?b] |- _ => destruct (Z.ltb_spec a b)
         end;
  simpl in *; try discriminate; try lia; auto.

Lemma ascii_lower_is_ascii c :
  is_ascii c = true -> is_ascii (ascii_lower c) = true.
Proof. unfold is_ascii, ascii_lower. case_bounds. Qed.

Lemma ascii_upper_is_ascii c :
  is_ascii c = true -> is_ascii (ascii_upper c) = true.
Proof. unfold is_ascii, ascii_upper. case_bounds. Qed.

Lemma ascii_lower_idem c : ascii_lower (ascii_lower c) = ascii_lower c.
Proof. unfold ascii_lower. case_bounds. Qed.

Lemma ascii_lower_upper_lower c :
  ascii_lower (ascii_upper (ascii_lower c)) = ascii_lower c.
Proof. unfold ascii_lower, ascii_upper. case_bounds. Qed.

Lemma ascii_isalpha_upper_lower c :
  ascii_isalpha (ascii_lower c) = true ->
  ascii_isalpha (ascii_upper (ascii_lower c)) = true.
Proof. unfold ascii_isalpha, ascii_lower, ascii_upper. case_bounds. Qed.

Lemma ascii_lower_other c : ascii_isalpha c = false -> ascii_lower c = c.
Proof. unfold ascii_isalpha, ascii_lower. case_bounds. Qed.

Section Ascii.
Context {U : Unicode}.
Hypothesis conformant : ascii_conformant U = true.

Lemma conformant_char (c : Z) :
  is_ascii c = true ->
  char_isalpha c = ascii_isalpha c
  /\ lower [c] = [ascii_lower c]
  /\ upper [c] = [ascii_upper c].
Proof.
  intros Hc. unfold ascii_conformant in conformant.
  rewrite forallb_forall in conformant.
  assert (Hin : In c (seqZ 0 128)).
  { apply list_elem_of_In, elem_of_seqZ. unfold is_ascii in Hc. case_bounds. }
  apply conformant in Hin.
  apply andb_prop in Hin as [Hin Hu]. apply andb_prop in Hin as [Ha Hl].
  apply Bool.eqb_prop in Ha.
  apply bool_decide_eq_true in Hl. apply bool_decide_eq_true in Hu.
  auto.
Qed.

Lemma ascii_lower1 (c : Z) : is_ascii c = true -> lower1 c = ascii_lower c.
Proof.
  intros Hc. destruct (conformant_char c Hc) as (Ha & Hl & _).
  unfold lower1. rewrite Ha, Hl.
  destruct (ascii_isalpha c) eqn:E; [reflexivity |].
  simpl. now rewrite (ascii_lower_other c E).
Qed.

Lemma ascii_upper1 (c : Z) : is_ascii c = true -> upper1 c = ascii_upper c.
Proof.
  intros Hc. destruct (conformant_char c Hc) as (_ & _ & Hu).
  unfold upper1. now rewrite Hu.
Qed.

Lemma ascii_lower_is_char (c : Z) :
  is_ascii c = true -> lower_is_char c = true.
Proof.
  intros Hc. destruct (conformant_char c Hc) as (_ & Hl & _).
  unfold lower_is_char. rewrite Hl. now destruct (char_isalpha c).
Qed.

Lemma ascii_case_stable (c : Z) :
  is_ascii c = true -> case_stable (ascii_lower c) = true.
Proof.
  intros Hc. pose proof (ascii_lower_is_ascii c Hc) as Hd.
  destruct (conformant_char _ Hd) as (Ha & Hl & Hu).
  destruct (conformant_char _ (ascii_upper_is_ascii _ Hd)) as (Ha' & Hl' & _).
  unfold case_stable. rewrite Ha, Hl, Hu, Ha', Hl'.
  destruct (ascii_isalpha (ascii_lower c)) eqn:E; [|reflexivity].
  rewrite ascii_lower_idem, ascii_lower_upper_lower.
  rewrite (ascii_isalpha_upper_lower c E).
  now rewrite !bool_decide_eq_true_2.
Qed.

Lemma map_lower_is_ascii (s : pystr) :
  forallb is_ascii s = true -> forallb is_ascii (map ascii_lower s) = true.
Proof.
  induction s as [|c s IH]; [reflexivity |]. simpl. intros H.
  apply andb_prop in H as [Hc Hs].
  now rewrite (ascii_lower_is_ascii c Hc), (IH Hs).
Qed.

Lemma map_lower1_ascii (s : pystr) :
  forallb is_ascii s = true -> map lower1 s = map ascii_lower s.
Proof.
  induction s as [|c s IH]; [reflexivity |]. simpl. intros H.
  apply andb_prop in H as [Hc Hs].
  now rewrite (ascii_lower1 c Hc), (IH Hs).
Qed.

(** Every ASCII string is stably cased. *)
Lemma ascii_stably_cased (s : pystr) :
  forallb is_ascii s = true -> stably_cased s = true.
Proof.
  intros Hs. unfold stably_cased.
  assert (Hl : forallb lower_is_char s = true).
  { rewrite forallb_forall in *. intros c Hc.
    apply ascii_lower_is_char. auto. }
  rewrite Hl, (lowered_chars s Hl), (map_lower1_ascii s Hs). simpl.
  clear Hl. induction s as [|c s IH]; [reflexivity |]. simpl in *.
  apply andb_prop in Hs as [Hc Hs].
  now rewrite (ascii_case_stable c Hc), (IH Hs).
Qed.

Lemma char_walk_ascii (l : pystr) :
  forallb is_ascii l = true ->
  forall cap_next, char_walk cap_next l = ascii_walk cap_next l.
Proof.
  induction l as [|c l IH]; [reflexivity |]. simpl. intros H cap.
  apply andb_prop in H as [Hc Hl].
  destruct (conformant_char c Hc) as (Ha & _ & _).
  rewrite Ha, (ascii_upper1 c Hc), !(IH Hl). reflexivity.
Qed.

(** On an ASCII string the function is the walk of its code points. *)
Lemma to_sentence_case_ascii (s : pystr) :
  forallb is_ascii s = true ->
  result (to_sentence_case (Some s))
  = Ok (ascii_walk true (map ascii_lower s)).
Proof.
  intros Hs.
  rewrite (to_sentence_case_chars s (stably_single s (ascii_stably_cased s Hs))).
  rewrite (map_lower1_ascii s Hs).
  now rewrite (char_walk_ascii _ (map_lower_is_ascii s Hs)).
Qed.

End Ascii.

(** *** The letters that the loop capitalises *)

Section Openers.
Context {U : Unicode}.

Lemma lowered_app (x y : pystr) : lowered (x ++ y) = lowered x ++ lowered y.
Proof.
  unfold lowered, join, chars_of. now rewrite !map_app, concat_app.
Qed.

Lemma chars_of_app (x y : pystr) :
  chars_of (x ++ y) = chars_of x ++ chars_of y.
Proof. unfold chars_of. apply map_app. Qed.

Lemma join_app (x y : list pystr) : join (x ++ y) = join x ++ join y.
Proof. unfold join. apply concat_app. Qed.

Lemma walk_app_flag (front rest : list pystr) :
  forall cap_next,
    walk cap_next (front ++ rest)
    = walk cap_next front ++ walk (flag_after cap_next front) rest.
Proof.
  induction front as [|ch front IH]; intros cap; [reflexivity |].
  cbn [walk flag_after app].
  destruct (cap && isalpha ch); [now rewrite IH |].
  destruct (str_in ch sentence_marks); now rewrite IH.
Qed.

Lemma flag_after_app (front rest : list pystr) :
  forall cap_next,
    flag_after cap_next (front ++ rest)
    = flag_after (flag_after cap_next front) rest.
Proof.
  induction front as [|ch front IH]; intros cap; [reflexivity |].
  cbn [flag_after app].
  destruct (cap && isalpha ch); [now rewrite IH |].
  destruct (str_in ch sentence_marks); now rewrite IH.
Qed.

(** With one-character upper-case forms of the capitalised letters the
    walk is the walk of the code points. *)
Lemma walk_openers (l : pystr) :
  forall cap_next,
    forallb (fun d => one_char (upper d))
            (capitalised cap_next (chars_of l)) = true ->
    join (walk cap_next (chars_of l)) = char_walk cap_next l.
Proof.
  unfold join, chars_of. induction l as [|d l IH]; [reflexivity |].
  intros cap. cbn [map walk capitalised char_walk].
  rewrite isalpha_char.
  destruct (cap && char_isalpha d) eqn:E.
  - cbn [forallb]. intros H. apply andb_prop in H as [Hd Hl].
    unfold upper1. rewrite (one_char_hd _ d Hd) at 1.
    simpl. now rewrite (IH _ Hl).
  - destruct (str_in [d] sentence_marks); intros H; simpl;
      now rewrite (IH _ H).
Qed.

Lemma char_walk_case_variant_openers (s : pystr) :
  forallb lower_is_char s = true ->
  forall cap_next,
    forallb (fun d => one_char (upper d))
            (capitalised cap_next (chars_of (map lower1 s))) = true ->
    Forall2 case_variant s (char_walk cap_next (map lower1 s)).
Proof.
  induction s as [|c s IH]; intros Hl cap Hu; [constructor |].
  simpl in Hl. apply andb_prop in Hl as [Hc Hs].
  pose proof (lower1_spec c Hc) as Hlow.
  assert (Hkeep : case_variant c (lower1 c)).
  { unfold case_variant. destruct (char_isalpha c); [now left |].
    now injection Hlow as <-. }
  unfold chars_of in Hu. cbn [map capitalised] in Hu.
  rewrite isalpha_char in Hu. cbn [map char_walk].
  destruct (cap && char_isalpha (lower1 c)) eqn:E.
  - cbn [forallb] in Hu. apply andb_prop in Hu as [Hd Hrest].
    constructor; [|now apply IH].
    apply andb_prop in E as [_ E].
    unfold case_variant. destruct (char_isalpha c) eqn:Ec.
    + right. rewrite Hlow. unfold upper1. now apply one_char_hd.
    + injection Hlow as Hlow. rewrite <- Hlow, Ec in E. discriminate E.
  - destruct (str_in [lower1 c] sentence_marks);
      (constructor; [exact Hkeep | now apply IH]).
Qed.

(** What the stronger conditions on every letter give. *)
Lemma capitalised_letters (l : pystr) :
  forall cap_next d,
    In d (capitalised cap_next (chars_of l)) ->
    exists c, d = [c] /\ In c l /\ char_isalpha c = true.
Proof.
  unfold chars_of. induction l as [|c l IH]; intros cap d; [intros [] |].
  cbn [map capitalised]. rewrite isalpha_char.
  destruct (cap && char_isalpha c) eqn:E.
  - intros [<- | Hin].
    + apply andb_prop in E as [_ E]. exists c. repeat split; auto.
      now left.
    + destruct (IH _ _ Hin) as (c' & -> & Hc' & Ha). exists c'.
      repeat split; auto. now right.
  - destruct (str_in [c] sentence_marks); intros Hin;
      destruct (IH _ _ Hin) as (c' & -> & Hc' & Ha); exists c';
      repeat split; auto; now right.
Qed.

Lemma kept_chars (l : pystr) :
  forall cap_next ch,
    In ch (kept cap_next (chars_of l)) -> exists c, ch = [c] /\ In c l.
Proof.
  unfold chars_of. induction l as [|c l IH]; intros cap ch; [intros [] |].
  cbn [map kept].
  destruct (cap && isalpha [c]).
  - intros Hin. destruct (IH _ _ Hin) as (c' & -> & Hc'). exists c'.
    split; auto. now right.
  - destruct (str_in [c] sentence_marks);
      (intros [<- | Hin];
       [exists c; split; auto; now left
       | destruct (IH _ _ Hin) as (c' & -> & Hc'); exists c';
         split; auto; now right]).
Qed.

Lemma single_cased_openers (s : pystr) :
  single_cased s = true -> openers_single_cased s = true.
Proof.
  unfold single_cased, openers_single_cased. intros H.
  apply andb_prop in H as [Hl Hu]. rewrite Hl. simpl.
  rewrite forallb_forall in *. intros d Hd.
  destruct (capitalised_letters _ _ _ Hd) as (c & -> & Hc & Ha).
  apply Hu in Hc. unfold upper_is_char in Hc. now rewrite Ha in Hc.
Qed.

Lemma stably_recasing (s : pystr) :
  stably_cased s = true -> recasing_stable s = true.
Proof.
  unfold stably_cased, recasing_stable. intros H.
  apply andb_prop in H as [_ Hs]. apply andb_true_intro.
  rewrite !forallb_forall in *. split.
  - intros ch Hch. destruct (kept_chars _ _ _ Hch) as (c & -> & Hc).
    apply Hs in Hc. unfold lower_fixed. apply bool_decide_eq_true.
    rewrite lowered_cons. unfold case_stable in Hc.
    destruct (char_isalpha c); [|reflexivity].
    apply andb_prop in Hc as [Hc _]. apply bool_decide_eq_true in Hc.
    now rewrite Hc.
  - intros d Hd.
    destruct (capitalised_letters _ _ _ Hd) as (c & -> & Hc & Ha).
    apply Hs in Hc. unfold case_stable in Hc. rewrite Ha in Hc.
    apply andb_prop in Hc as [_ Hc].
    destruct (upper [c]) as [|u [|v x]] eqn:Eu; try discriminate Hc.
    apply andb_prop in Hc as [Hu Hback]. apply bool_decide_eq_true in Hback.
    unfold recased_unchanged. rewrite lowered_cons, Hu, Hback.
    change (lowered []) with (@nil Z).
    unfold chars_of. cbn [app map walk flag_after].
    rewrite isalpha_char, Ha. cbn [andb]. rewrite Eu.
    now rewrite bool_decide_eq_true_2 by reflexivity.
Qed.

(** Walking the result again: each capitalised letter comes back from its
    upper-case form, each other character from itself. *)
Lemma rewalk (l : pystr) :
  forall cap_next,
    forallb lower_fixed (kept cap_next (chars_of l)) = true ->
    forallb (fun d => recased_unchanged (upper d))
            (capitalised cap_next (chars_of l)) = true ->
    join (walk cap_next
            (chars_of (lowered (join (walk cap_next (chars_of l))))))
    = join (walk cap_next (chars_of l))
    /\ flag_after cap_next
         (chars_of (lowered (join (walk cap_next (chars_of l)))))
       = flag_after cap_next (chars_of l).
Proof.
  induction l as [|d l IH]; intros cap Hk Hc; [now split |].
  unfold chars_of in Hk, Hc |- *.
  cbn [map walk kept capitalised flag_after] in Hk, Hc |- *.
  fold (chars_of l) in Hk, Hc |- *.
  destruct (cap && isalpha [d]) eqn:E.
  - apply andb_prop in E as [-> _].
    cbn [forallb] in Hc. apply andb_prop in Hc as [Hd Hrest].
    unfold recased_unchanged in Hd. apply andb_prop in Hd as [Hsame Hoff].
    apply bool_decide_eq_true in Hsame. apply negb_true_iff in Hoff.
    destruct (IH false Hk Hrest) as [IH1 IH2].
    change (join (upper [d] :: walk false (chars_of l)))
      with (upper [d] ++ join (walk false (chars_of l))).
    rewrite lowered_app, chars_of_app, walk_app_flag, flag_after_app.
    rewrite Hoff, join_app, Hsame, IH1, IH2. now split.
  - change (join ([d] :: ?x)) with ([d] ++ join x).
    assert (Hfix : lowered [d] = [d]).
    { destruct (str_in [d] sentence_marks); cbn [forallb] in Hk;
        apply andb_prop in Hk as [Hk _];
        now apply bool_decide_eq_true in Hk. }
    destruct (str_in [d] sentence_marks) eqn:Em.
    + cbn [forallb] in Hk. apply andb_prop in Hk as [_ Hk].
      destruct (IH true Hk Hc) as [IH1 IH2].
      change (join ([d] :: walk true (chars_of l)))
        with ([d] ++ join (walk true (chars_of l))).
      rewrite lowered_app, Hfix.
      change (map (fun c : Z => [c]) ([d] ++ ?x)) with ([d] :: chars_of x).
      cbn [walk flag_after]. rewrite E, Em.
      change (join ([d] :: ?x)) with ([d] ++ join x).
      now rewrite IH1, IH2.
    + cbn [forallb] in Hk. apply andb_prop in Hk as [_ Hk].
      destruct (IH cap Hk Hc) as [IH1 IH2].
      change (join ([d] :: walk cap (chars_of l)))
        with ([d] ++ join (walk cap (chars_of l))).
      rewrite lowered_app, Hfix.
      change (map (fun c : Z => [c]) ([d] ++ ?x)) with ([d] :: chars_of x).
      cbn [walk flag_after]. rewrite E, Em.
      change (join ([d] :: ?x)) with ([d] ++ join x).
      now rewrite IH1, IH2.
Qed.

End Openers.

(** ** The conditions on the fragment

    On [ucd] the two conditions on the letters that the loop capitalises are
    not only sufficient: a string that fails the first has a result of
    another length, and a string that fails the second a result that the
    function changes again. *)

Lemma ucd_letters_all (c : Z) : ucd_isalpha c = true -> In c ucd_letters.
Proof.
  unfold ucd_isalpha, ascii_isalpha, ucd_letters. intros H.
  destruct (Z.eqb_spec c 223) as [E1 | _]; [rewrite E1; now left |].
  destruct (Z.eqb_spec c 304) as [E2 | _]; [rewrite E2; right; now left |].
  right. right. rewrite !orb_false_r in H. apply in_or_app.
  apply orb_prop in H as [H | H]; apply andb_prop in H as [H1 H2];
    apply Z.leb_le in H1, H2; [left | right];
    apply in_map_iff; exists (Z.to_nat c);
    (split; [lia | apply in_seq; lia]).
Qed.

(** A property of every letter of the fragment, by enumeration. *)
Lemma ucd_letters_ind (P : Z -> bool) :
  forallb P ucd_letters = true ->
  forall c, ucd_isalpha c = true -> P c = true.
Proof.
  intros H c Hc. rewrite forallb_forall in H.
  apply H, ucd_letters_all, Hc.
Qed.

(** Lower-casing changes no character of a lower-cased string. *)
Lemma ucd_lowered_fixed (s : pystr) :
  Forall (fun c => @lowered ucd [c] = [c]) (@lowered ucd s).
Proof.
  induction s as [|c s IH]; [constructor |].
  rewrite lowered_cons. apply Forall_app. split; [|exact IH].
  destruct (@char_isalpha ucd c) eqn:Ec.
  - apply List.Forall_forall.
    assert (H : forallb (fun x => bool_decide (@lowered ucd [x] = [x]))
                        (@lower ucd [c]) = true).
    { revert c Ec.
      apply (ucd_letters_ind
               (fun c => forallb
                           (fun x => bool_decide (@lowered ucd [x] = [x]))
                           (@lower ucd [c]))).
      vm_compute. reflexivity. }
    rewrite forallb_forall in H. intros x Hx.
    apply H in Hx. now apply bool_decide_eq_true in Hx.
  - constructor; [|constructor]. rewrite lowered_cons, Ec. reflexivity.
Qed.

(** Of the letters that lower-casing leaves alone, only the sharp s has an
    upper-case form that the function changes. *)
Lemma ucd_opener_cases (c : Z) :
  ucd_isalpha c = true ->
  @lowered ucd [c] = [c] ->
  c = 223 \/ @recased_unchanged ucd (@upper ucd [c]) = true.
Proof.
  intros Hc Hl.
  pose proof (ucd_letters_ind
    (fun c => implb (bool_decide (@lowered ucd [c] = [c]))
                    ((c =? 223)
                     || @recased_unchanged ucd (@upper ucd [c])))) as H.
  specialize (H ltac:(vm_compute; reflexivity) c Hc). cbv beta in H.
  rewrite bool_decide_eq_true_2 in H by exact Hl. cbn [implb] in H.
  apply orb_prop in H as [H | H]; [left; now apply Z.eqb_eq | now right].
Qed.

(** When some letter that the loop capitalises has an upper-case form that
    the function changes, the function changes the result. *)
Lemma ucd_rewalk_differs (l : pystr) :
  forall cap_next,
    Forall (fun c => @lowered ucd [c] = [c]) l ->
    forallb (fun d => @recased_unchanged ucd (@upper ucd d))
            (@capitalised ucd cap_next (chars_of l)) = false ->
    join (@walk ucd cap_next
            (chars_of (@lowered ucd
                         (join (@walk ucd cap_next (chars_of l))))))
    <> join (@walk ucd cap_next (chars_of l)).
Proof.
  induction l as [|d l IH]; intros cap Hl Hc; [discriminate Hc |].
  apply Forall_cons in Hl as [Hd Hl].
  unfold chars_of in Hc |- *. cbn [map walk capitalised] in Hc |- *.
  fold (chars_of l) in Hc |- *.
  destruct (cap && @isalpha ucd [d]) eqn:E.
  - apply andb_prop in E as [-> Ea]. rewrite isalpha_char in Ea.
    cbn [forallb] in Hc.
    change (join (@upper ucd [d] :: ?x)) with (@upper ucd [d] ++ join x).
    rewrite lowered_app, chars_of_app, walk_app_flag, join_app.
    destruct (ucd_opener_cases d Ea Hd) as [-> | Hu].
    + vm_compute (@upper ucd [223]).
      vm_compute (join (@walk ucd true (chars_of (@lowered ucd [83; 83])))).
      intros H. discriminate H.
    + rewrite Hu in Hc. cbn [andb] in Hc.
      unfold recased_unchanged in Hu. apply andb_prop in Hu as [Hsame Hoff].
      apply bool_decide_eq_true in Hsame. apply negb_true_iff in Hoff.
      rewrite Hsame, Hoff. intros H. apply app_inv_head in H.
      exact (IH false Hl Hc H).
  - destruct (str_in [d] sentence_marks) eqn:Em;
      change (join ([d] :: ?x)) with ([d] ++ join x);
      rewrite lowered_app, Hd;
      change (map (fun c : Z => [c]) ([d] ++ ?x)) with ([d] :: chars_of x);
      cbn [walk]; rewrite E, Em;
      change (join ([d] :: ?x)) with ([d] ++ join x);
      intros H; apply app_inv_head in H; revert H; now apply IH.
Qed.

(** On the fragment the function leaves its result unchanged exactly for
    the strings of [recasing_stable]. *)
Lemma ucd_recasing_exact (s : pystr) :
  @recasing_stable ucd s = true
  <-> result (r <- @to_sentence_case ucd (Some s) ;;
              @to_sentence_case ucd (Some r))
      = result (@to_sentence_case ucd (Some s)).
Proof.
  pose proof (@to_sentence_case_walk ucd (Some s)) as Hrun.
  simpl or_empty in Hrun.
  rewrite (result_bind _ _ _ Hrun), Hrun, to_sentence_case_walk.
  simpl or_empty. split.
  - unfold recasing_stable. intros H. apply andb_prop in H as [Hk Hc].
    f_equal. exact (proj1 (rewalk (@lowered ucd s) true Hk Hc)).
  - intros H. injection H as H.
    destruct (@recasing_stable ucd s) eqn:E; [reflexivity | exfalso].
    unfold recasing_stable in E. apply andb_false_iff in E as [E | E].
    + assert (Hk : forallb (@lower_fixed ucd)
                     (@kept ucd true (chars_of (@lowered ucd s))) = true).
      { rewrite forallb_forall. intros ch Hch.
        destruct (kept_chars _ _ _ Hch) as (c & -> & Hc).
        apply bool_decide_eq_true_2.
        pose proof (ucd_lowered_fixed s) as Hf.
        rewrite List.Forall_forall in Hf. now apply Hf. }
      rewrite Hk in E. discriminate E.
    + exact (ucd_rewalk_differs _ true (ucd_lowered_fixed s) E H).
Qed.

(** Lower-casing never shortens a string of the fragment. *)
Lemma ucd_lowered_length (s : pystr) :
  (length s <= length (@lowered ucd s))%nat
  /\ (forallb (@lower_is_char ucd) s = false ->
      (length s < length (@lowered ucd s))%nat).
Proof.
  induction s as [|c s [IH1 IH2]]; [split; [cbn; lia | discriminate] |].
  rewrite lowered_cons, length_app. cbn [forallb length].
  unfold lower_is_char at 1.
  destruct (@char_isalpha ucd c); [|cbn [length andb]; split; [lia |]].
  - cbn [lower ucd map concat]. rewrite app_nil_r. unfold ucd_lower_char.
    destruct (c =? 304); cbn [length one_char andb]; split; try lia.
    intros H. apply IH2 in H. lia.
  - intros H. apply IH2 in H. lia.
Qed.

(** Neither does the loop. *)
Lemma ucd_walk_length (l : pystr) :
  forall cap_next,
    (length l <= length (join (@walk ucd cap_next (chars_of l))))%nat
    /\ (forallb (fun d => one_char (@upper ucd d))
                (@capitalised ucd cap_next (chars_of l)) = false ->
        (length l < length (join (@walk ucd cap_next (chars_of l))))%nat).
Proof.
  induction l as [|d l IH]; intros cap; [split; [cbn; lia | discriminate] |].
  unfold chars_of. cbn [map walk capitalised]. fold (chars_of l).
  destruct (cap && @isalpha ucd [d]).
  - destruct (IH false) as [IH1 IH2].
    change (join (@upper ucd [d] :: ?x)) with (@upper ucd [d] ++ join x).
    rewrite length_app. cbn [forallb length].
    cbn [upper ucd map concat]. rewrite app_nil_r. unfold ucd_upper_char.
    destruct (d =? 223); cbn [length one_char andb]; split; try lia.
    intros H. apply IH2 in H. lia.
  - destruct (str_in [d] sentence_marks);
      change (join ([d] :: ?x)) with ([d] ++ join x);
      rewrite length_app; cbn [length];
      [destruct (IH true) as [IH1 IH2] | destruct (IH cap) as [IH1 IH2]];
      (split; [lia | intros H; apply IH2 in H; lia]).
Qed.

(** On the fragment the result has the length of the string exactly for
    the strings of [openers_single_cased]. *)
Lemma ucd_openers_exact (s : pystr) :
  @openers_single_cased ucd s = true
  <-> exists r,
        result (@to_sentence_case ucd (Some s)) = Ok r
        /\ length r = length s.
Proof.
  rewrite to_sentence_case_walk. simpl or_empty. split.
  - unfold openers_single_cased. intros H. apply andb_prop in H as [Hl Hu].
    eexists. split; [reflexivity |].
    rewrite (lowered_chars _ Hl) in Hu |- *.
    now rewrite (walk_openers _ _ Hu), char_walk_length, length_map.
  - intros (r & E & Hlen). injection E as <-.
    destruct (@openers_single_cased ucd s) eqn:Eo; [reflexivity | exfalso].
    unfold openers_single_cased in Eo.
    destruct (ucd_lowered_length s) as [L1 L2].
    destruct (ucd_walk_length (@lowered ucd s) true) as [W1 W2].
    apply andb_false_iff in Eo as [Eo | Eo];
      [apply L2 in Eo | apply W2 in Eo]; lia.
Qed.

(** ** [ensure_terminal_period] *)

Lemma getitem_last {A} (body : list A) (c : A) :
  getitem (body ++ [c]) (-1) = (Ok c, [Access (len (body ++ [c])) (-1)]).
Proof.
  unfold getitem. f_equal.
  change (-1 <? 0) with true. cbv iota.
  replace (-1 + len (body ++ [c])) with (len body)
    by (rewrite len_app; unfold len; simpl; lia).
  pose proof (len_nonneg body) as Hn.
  destruct (len body <? 0) eqn:E; [apply Z.ltb_lt in E; lia |].
  unfold len. rewrite Nat2Z.id.
  now rewrite list_lookup_middle.
Qed.

Lemma getitem_before_last {A} (body : list A) (p c : A) :
  getitem (body ++ [p; c]) (-2)
  = (Ok p, [Access (len (body ++ [p; c])) (-2)]).
Proof.
  unfold getitem. f_equal.
  change (-2 <? 0) with true. cbv iota.
  replace (-2 + len (body ++ [p; c])) with (len body)
    by (rewrite len_app; unfold len; simpl; lia).
  pose proof (len_nonneg body) as Hn.
  destruct (len body <? 0) eqn:E; [apply Z.ltb_lt in E; lia |].
  unfold len. rewrite Nat2Z.id.
  now rewrite list_lookup_middle.
Qed.

Lemma slice_to_last {A} (body : list A) (c : A) :
  slice_to (body ++ [c]) (-1) = body.
Proof.
  unfold slice_to. change (-1 <? 0) with true. cbv iota.
  replace (Z.max 0 (-1 + len (body ++ [c]))) with (len body)
    by (rewrite len_app; unfold len; simpl; lia).
  unfold len. rewrite Nat2Z.id.
  change firstn with (@take A). now rewrite take_app_length.
Qed.

(** The one-character strings in [closing_quotes] are the two straight
    quotes. *)
Lemma closing_quotes_chars (c : Z) :
  str_in [c] closing_quotes = true <-> c = 34 \/ c = 39.
Proof.
  unfold str_in, closing_quotes. cbn [existsb].
  rewrite !orb_true_iff, !bool_decide_eq_true. split.
  - intros [H|[H|[H|[H|H]]]]; try discriminate H; injection H; auto.
  - intros [->| ->]; auto.
Qed.

Section TerminalPeriod.
Context {U : Unicode}.

(** The function returns for every input, by one of the runs. *)
Lemma ensure_terminal_period_runs (s0 : option pystr) :
  exists r t,
    ensure_terminal_period s0 = (Ok r, t)
    /\ etp_run (rstrip (or_empty s0)) r t.
Proof.
  unfold ensure_terminal_period.
  set (s := rstrip (or_empty s0)). clearbody s.
  destruct s as [|c body _] using rev_ind.
  - exists [], []. split; [reflexivity | now constructor].
  - rewrite bool_decide_eq_false_2 by (intros E; destruct body; discriminate E).
    unfold str_getitem. rewrite getitem_last.
    destruct (str_in [c] terminal) eqn:Et.
    { cbn. rewrite Et. eexists _, _. split; [reflexivity |].
      now apply (run_terminal _ body c). }
    destruct (str_in [c] closing_quotes) eqn:Eq.
    2:{ cbn. rewrite Et, Eq. eexists _, _. split; [reflexivity |].
        now apply (run_plain _ body c). }
    destruct body as [|p body _] using rev_ind.
    + cbn. rewrite Et, Eq. cbn.
      eexists _, _. split; [reflexivity |]. now apply (run_lone_quote _ c).
    + assert (Hshape : (body ++ [p]) ++ [c] = body ++ [p; c])
        by now rewrite <- List.app_assoc.
      assert (Hcut : slice_to (body ++ [p; c]) (-1) = body ++ [p])
        by (rewrite <- Hshape; apply slice_to_last).
      rewrite Hshape.
      assert (Hlen : (2 <=? len (body ++ [p; c])) = true).
      { apply Z.leb_le. rewrite !len_app. unfold len. cbn. lia. }
      cbn. rewrite Et, Eq, Hlen. rewrite getitem_before_last. cbn.
      destruct (str_in [p] terminal) eqn:Ep; cbn.
      * eexists _, _. split; [reflexivity |].
        now apply (run_quote_ended _ body p c).
      * rewrite Hcut.
        eexists _, _. split; [reflexivity |].
        rewrite <- (List.app_assoc body [p]).
        now apply (run_quote_insert _ body p c).
Qed.

End TerminalPeriod.

(** ** Stripping *)

Section Strip.
Context {U : Unicode}.

Lemma lstrip_length (s : pystr) : (length (lstrip s) <= length s)%nat.
Proof.
  induction s as [|c s IH]; simpl; [lia |].
  destruct (char_isspace c); simpl; lia.
Qed.

Lemma lstrip_idem (s : pystr) : lstrip (lstrip s) = lstrip s.
Proof.
  induction s as [|c s IH]; [reflexivity |]. simpl.
  destruct (char_isspace c) eqn:E; [exact IH |]. simpl. now rewrite E.
Qed.

Lemma lstrip_suffix (s : pystr) : exists k, s = k ++ lstrip s.
Proof.
  induction s as [|c s [k IH]]; [now exists [] |]. simpl.
  destruct (char_isspace c).
  - exists (c :: k). simpl. now f_equal.
  - now exists [].
Qed.

(** A prefix of a string without leading white space has none either. *)
Lemma lstrip_prefix_fixed (a b : pystr) :
  lstrip (a ++ b) = a ++ b -> lstrip a = a.
Proof.
  destruct a as [|c a]; [reflexivity |]. simpl.
  destruct (char_isspace c); [|reflexivity].
  intros E. pose proof (lstrip_length (a ++ b)) as Hl.
  rewrite E in Hl. simpl in Hl. lia.
Qed.

Lemma rstrip_idem (s : pystr) : rstrip (rstrip s) = rstrip s.
Proof. unfold rstrip. now rewrite rev_involutive, lstrip_idem. Qed.

Lemma rstrip_lstrip_rstrip (s : pystr) :
  rstrip (lstrip (rstrip s)) = lstrip (rstrip s).
Proof.
  destruct (lstrip_suffix (rstrip s)) as [k Hk].
  assert (Hfix : lstrip (rev (rstrip s)) = rev (rstrip s)).
  { unfold rstrip. now rewrite rev_involutive, lstrip_idem. }
  rewrite Hk in Hfix at 1 2. rewrite rev_app_distr in Hfix.
  apply lstrip_prefix_fixed in Hfix.
  unfold rstrip at 1. rewrite Hfix. apply rev_involutive.
Qed.

Lemma strip_idem (s : pystr) : strip (strip s) = strip s.
Proof.
  unfold strip. now rewrite rstrip_lstrip_rstrip, lstrip_idem.
Qed.

End Strip.

(** ** [guess_heading_level] *)

Section ClassifierFacts.
Context {U : Unicode}.

Lemma guess_heading_level_range (style_name text : option pystr) :
  In (guess_heading_level style_name text) [0; 1; 2; 3; 4].
Proof.
  unfold guess_heading_level.
  repeat match goal with
         | |- context [if ?b then _ else _] => destruct b
         end; simpl; auto 6.
Qed.

(** The level does not change when the text is stripped beforehand, as
    [transform_docx] does. *)
Lemma guess_heading_level_stripped (style_name text : option pystr) :
  guess_heading_level style_name (Some (strip (or_empty text)))
  = guess_heading_level style_name text.
Proof.
  unfold guess_heading_level. simpl or_empty. now rewrite strip_idem.
Qed.

End ClassifierFacts.

(** ** [transform_docx] *)

Lemma sum_values_increment (counts : gmap string Z) (key : string) (v : Z) :
  counts !! key = Some v ->
  sum_values (<[key := v + 1]> counts) = sum_values counts + 1.
Proof.
  intros H. unfold sum_values.
  rewrite <- insert_delete_eq.
  rewrite map_fold_insert_L; [| intros; lia | apply lookup_delete_eq].
  rewrite (map_fold_delete_L _ _ key v counts); [lia | intros; lia | exact H].
Qed.

Lemma increment_counted (counts : gmap string Z) (n : Z) (key : string) :
  In key ["H2"; "H3"; "H4"; "H5"]%string ->
  counted counts n ->
  exists counts',
    result (increment counts key) = Ok counts' /\ counted counts' (n + 1).
Proof.
  intros Hkey (Hsum & h2 & h3 & h4 & h5 & E2 & E3 & E4 & E5 & Hn).
  unfold increment.
  destruct Hkey as [<-|[<-|[<-|[<-|[]]]]].
  - rewrite E2. eexists. split; [reflexivity |]. split.
    + rewrite (sum_values_increment _ _ _ E2). lia.
    + exists (h2 + 1), h3, h4, h5.
      rewrite lookup_insert_eq, !lookup_insert_ne by discriminate.
      repeat split; auto; lia.
  - rewrite E3. eexists. split; [reflexivity |]. split.
    + rewrite (sum_values_increment _ _ _ E3). lia.
    + exists h2, (h3 + 1), h4, h5.
      rewrite lookup_insert_eq, !lookup_insert_ne by discriminate.
      repeat split; auto; lia.
  - rewrite E4. eexists. split; [reflexivity |]. split.
    + rewrite (sum_values_increment _ _ _ E4). lia.
    + exists h2, h3, (h4 + 1), h5.
      rewrite lookup_insert_eq, !lookup_insert_ne by discriminate.
      repeat split; auto; lia.
  - rewrite E5. eexists. split; [reflexivity |]. split.
    + rewrite (sum_values_increment _ _ _ E5). lia.
    + exists h2, h3, h4, (h5 + 1).
      rewrite lookup_insert_eq, !lookup_insert_ne by discriminate.
      repeat split; auto; lia.
Qed.

Lemma rendered_blocks_add (out : Document) (p : Paragraph) :
  p ≠ spacer ->
  rendered_blocks (out ++ [p; spacer]) = rendered_blocks out ++ [p].
Proof.
  intros Hp. unfold rendered_blocks. rewrite filter_app. f_equal.
  rewrite filter_cons_True by exact Hp.
  rewrite filter_cons_False by (intros H; now apply H).
  reflexivity.
Qed.

Section TransformFacts.
Context {U : Unicode}.

Lemma format_first_run_ok (p : Paragraph) :
  exists p', result (format_first_run p) = Ok p' /\ style p' = style p.
Proof.
  unfold format_first_run. destruct (runs p) as [|r rs] eqn:E.
  - exists p. split; reflexivity.
  - rewrite bool_decide_eq_false_2 by discriminate.
    eexists. split; [reflexivity | reflexivity].
Qed.

Lemma add_heading_block out text : appends_block (add_heading out text) out.
Proof.
  unfold appends_block, add_heading, _add_visible_blank_line.
  eexists. split.
  - simpl. rewrite <- List.app_assoc. reflexivity.
  - discriminate.
Qed.

Lemma add_subheading_all_caps_block out text :
  appends_block (add_subheading_all_caps out text) out.
Proof.
  unfold appends_block, add_subheading_all_caps, _add_visible_blank_line.
  eexists. split.
  - simpl. rewrite <- List.app_assoc. reflexivity.
  - discriminate.
Qed.

Lemma styled_not_spacer (p : Paragraph) (name : pystr) :
  style p = Some name -> p ≠ spacer.
Proof. intros E ->. discriminate E. Qed.

Lemma add_bullet_block out text indent add_period :
  appends_block (add_bullet out text indent add_period) out.
Proof.
  unfold appends_block, add_bullet, _add_visible_blank_line.
  rewrite (result_bind _ _ _ (to_sentence_case_walk text)).
  set (formatted := join _). clearbody formatted.
  assert (Hperiod : exists r,
             result (if add_period
                     then ensure_terminal_period (Some formatted)
                     else ret formatted) = Ok r).
  { destruct add_period; [|now eexists].
    destruct (ensure_terminal_period_runs (Some formatted))
      as (r & t & E & _).
    exists r. now rewrite E. }
  destruct Hperiod as [r Hr]. rewrite (result_bind _ _ _ Hr).
  match goal with
  | |- context [format_first_run ?q] =>
      destruct (format_first_run_ok q) as (p' & Hp' & Hstyle)
  end.
  rewrite (result_bind _ _ _ Hp').
  exists p'. split.
  - simpl. rewrite <- List.app_assoc. reflexivity.
  - eapply styled_not_spacer. rewrite Hstyle. reflexivity.
Qed.

Lemma add_h5_bullet_block out text :
  appends_block (add_h5_bullet out text) out.
Proof.
  unfold appends_block, add_h5_bullet, _add_visible_blank_line.
  rewrite (result_bind _ _ _ (to_sentence_case_walk text)).
  set (inner := join _). clearbody inner.
  destruct (ensure_terminal_period_runs (Some inner)) as (r & t & E & _).
  assert (Hr : result (ensure_terminal_period (Some inner)) = Ok r)
    by now rewrite E.
  rewrite (result_bind _ _ _ Hr).
  match goal with
  | |- context [format_first_run ?q] =>
      destruct (format_first_run_ok q) as (p' & Hp' & Hstyle)
  end.
  rewrite (result_bind _ _ _ Hp').
  eexists. split.
  - simpl. rewrite <- List.app_assoc. reflexivity.
  - eapply styled_not_spacer. simpl. rewrite Hstyle. reflexivity.
Qed.

End TransformFacts.

Section TransformInvariant.
Context {U : Unicode}.

Lemma guess_heading_level_getattr (para : SourceParagraph) t :
  guess_heading_level (style_name_or_empty para) t
  = guess_heading_level (style_name para) t.
Proof. reflexivity. Qed.

Ltac block_added Hblock key :=
  match goal with
  | Hc : counted ?counts ?n |- _ =>
      let p := fresh "p" in
      let Hp := fresh "Hp" in
      let Hne := fresh "Hne" in
      let counts' := fresh "counts'" in
      let Hi := fresh "Hi" in
      let Hc' := fresh "Hc'" in
      destruct Hblock as (p & Hp & Hne);
      rewrite (result_bind _ _ _ Hp);
      destruct (increment_counted counts n key ltac:(simpl; auto) Hc)
        as (counts' & Hi & Hc');
      rewrite (result_bind _ _ _ Hi);
      eexists; split; [reflexivity |];
      split; [simpl; rewrite (rendered_blocks_add _ _ Hne), len_app;
              unfold len at 2; simpl; lia
             | exact Hc']
  end.

Lemma transform_step_ok (flag : bool) (st : Document * gmap string Z)
    (para : SourceParagraph) (n : Z) :
  state_ok st n ->
  exists st',
    result (transform_step flag st para) = Ok st'
    /\ state_ok st' (n + if decide (renders para) then 1 else 0).
Proof.
  destruct st as [out counts]. intros [Hout Hc]. simpl in Hout, Hc.
  unfold transform_step.
  destruct (bool_decide (strip (or_empty (text para)) = [])) eqn:Etext.
  { apply bool_decide_eq_true in Etext.
    rewrite decide_False by (intros [H _]; now apply H).
    exists (out, counts). split; [reflexivity |].
    split; simpl; rewrite Z.add_0_r; assumption. }
  apply bool_decide_eq_false in Etext.
  rewrite guess_heading_level_stripped, guess_heading_level_getattr.
  pose proof (guess_heading_level_range (style_name para) (text para))
    as Hrange.
  set (level := guess_heading_level (style_name para) (text para)) in *.
  assert (Hdec : forall k, level = k -> k ≠ 0 ->
                           (if decide (renders para) then 1 else 0) = 1).
  { intros k Hk Hk0. rewrite decide_True; [reflexivity |].
    split; [exact Etext |]. fold level. congruence. }
  destruct (level =? 1) eqn:E1.
  { apply Z.eqb_eq in E1. rewrite (Hdec 1 E1) by lia.
    block_added (add_heading_block out
                   (Some (strip (or_empty (text para))))) "H2"%string. }
  destruct (level =? 2) eqn:E2.
  { apply Z.eqb_eq in E2. rewrite (Hdec 2 E2) by lia.
    block_added (add_subheading_all_caps_block out
                   (Some (strip (or_empty (text para))))) "H3"%string. }
  destruct (level =? 3) eqn:E3.
  { apply Z.eqb_eq in E3. rewrite (Hdec 3 E3) by lia.
    block_added (add_bullet_block out
                   (Some (strip (or_empty (text para)))) true flag)
                "H4"%string. }
  destruct (level =? 4) eqn:E4.
  { apply Z.eqb_eq in E4. rewrite (Hdec 4 E4) by lia.
    block_added (add_h5_bullet_block out
                   (Some (strip (or_empty (text para))))) "H5"%string. }
  apply Z.eqb_neq in E1, E2, E3, E4.
  assert (H0 : level = 0) by (simpl in Hrange; lia).
  rewrite decide_False by (intros [_ H]; apply H; exact H0).
  exists (out, counts). split; [reflexivity |].
  split; simpl; rewrite Z.add_0_r; assumption.
Qed.

Lemma for_each_paragraph_ok (flag : bool) (src : list SourceParagraph) :
  forall (st : Document * gmap string Z) (n : Z),
    state_ok st n ->
    exists st',
      result (for_each_paragraph flag src st) = Ok st'
      /\ state_ok st' (n + len (filter renders src)).
Proof.
  induction src as [|para rest IH]; intros st n Hst.
  - exists st. split; [reflexivity |].
    unfold len. simpl. now rewrite Z.add_0_r.
  - destruct (transform_step_ok flag st para n Hst) as (st1 & Hstep & Hst1).
    destruct (IH st1 _ Hst1) as (st' & Hrest & Hst').
    exists st'. split.
    + simpl. rewrite (result_bind _ _ _ Hstep). exact Hrest.
    + replace (n + len (filter renders (para :: rest)))
        with (n + (if decide (renders para) then 1 else 0)
              + len (filter renders rest)); [exact Hst' |].
      rewrite filter_cons. destruct (decide (renders para)).
      * unfold len. simpl. lia.
      * lia.
Qed.

End TransformInvariant.

(** * The claims *)

(** ** The transform *)

(** C1: on the four paragraphs INTRO (Heading 2), the empty paragraph
    (Heading 3), "point one" (Heading 4) and "sub point" (Heading 5), with
    the period option on, the transform returns the counts H2:1, H3:0, H4:1,
    H5:1 and exactly three blocks, in source order, with the texts "INTRO",
    "Point one." and "Sub point."; the third block has the style of the
    sub-bullets and the nested indent. *)
Theorem transform_docx_example :
  exists out counts,
    result (@transform_docx ucd example_source true) = Ok (out, counts)
    /\ counts = <["H2"%string := 1]> (<["H3"%string := 0]>
                  (<["H4"%string := 1]> (<["H5"%string := 1]> ∅)))
    /\ length (rendered_blocks out) = 3%nat
    /\ map paragraph_text (rendered_blocks out)
       = [lit "INTRO"; lit "Point one."; lit "Sub point."]
    /\ map style (rendered_blocks out)
       = [None; Some (lit "List Bullet 2"); Some (lit "H5Subbullet")]
    /\ map ind (rendered_blocks out) = [None; None; Some (1080, 360)].
Proof.
  eexists _, _. split; [vm_compute; reflexivity |].
  repeat split; vm_compute; reflexivity.
Qed.

(** C2: for every sequence of source paragraphs and either value of the
    option, the transform returns, the sum of the counts equals the number
    of rendered blocks, and that equals the number of source paragraphs
    whose stripped text is not empty and whose level is not 0. *)
Theorem transform_docx_counts (U : Unicode) (src : list SourceParagraph)
    (add_period_to_h4 : bool) :
  exists out counts,
    result (transform_docx src add_period_to_h4) = Ok (out, counts)
    /\ sum_values counts = len (rendered_blocks out)
    /\ len (rendered_blocks out) = len (filter renders src)
    /\ exists h2 h3 h4 h5,
         counts !! "H2"%string = Some h2 /\ counts !! "H3"%string = Some h3
         /\ counts !! "H4"%string = Some h4 /\ counts !! "H5"%string = Some h5
         /\ h2 + h3 + h4 + h5 = len (rendered_blocks out).
Proof.
  unfold transform_docx.
  match goal with
  | |- context [for_each_paragraph _ _ ?st0] =>
      destruct (for_each_paragraph_ok add_period_to_h4 src st0 0)
        as ([out counts] & Hrun & Hout & Hsum & Hkeys)
  end.
  { split; [reflexivity |]. split; [reflexivity |].
    exists 0, 0, 0, 0. repeat split; reflexivity. }
  simpl in Hout, Hsum, Hkeys. rewrite Z.add_0_l in *.
  exists out, counts. split; [exact Hrun |].
  rewrite Hout. repeat split; assumption.
Qed.

(** ** Terminal periods *)

(** C3: the function strips on the right, keeps the empty string, keeps a
    string that ends in a terminator, puts the period before a closing
    quote, straight or curly, and appends it otherwise.  On a string that
    ends in the curly quote U+201D the code appends the period after the
    quote: the curly members of [closing_quotes] are strings of three code
    points, which no single character equals. *)
Theorem ensure_terminal_period_curly_quote :
  result (@ensure_terminal_period ucd (Some curly_quoted))
  = Ok (lit "He said " ++ [8220] ++ lit "stop" ++ [8221] ++ lit ".")
  /\ result (@ensure_terminal_period ucd (Some curly_quoted))
     <> Ok (lit "He said " ++ [8220] ++ lit "stop" ++ lit "." ++ [8221])
  /\ str_in [8221] closing_quotes = false
  /\ str_in [8217] closing_quotes = false
  /\ result (@ensure_terminal_period ucd
               (Some (lit "He said " ++ [34] ++ lit "stop" ++ [34])))
     = Ok (lit "He said " ++ [34] ++ lit "stop." ++ [34])
  /\ result (@ensure_terminal_period ucd
               (Some (lit "Already done." ++ [34])))
     = Ok (lit "Already done." ++ [34]).
Proof.
  repeat split; try (vm_compute; reflexivity).
  vm_compute. discriminate.
Qed.

(** C7: when the stripped string has one character the function returns
    after the single subscript [s[-1]], which is in bounds; and on every
    input each subscript is in bounds, [s[-2]] being evaluated only on a
    stripped string of at least two characters. *)
Theorem ensure_terminal_period_single_char (U : Unicode)
    (s0 : option pystr) :
  len (rstrip (or_empty s0)) = 1 ->
  (exists r, result (ensure_terminal_period s0) = Ok r)
  /\ trace (ensure_terminal_period s0) = [Access 1 (-1)]
  /\ forall s1 : option pystr,
       Forall (fun a => in_bounds a
                        /\ seq_len a = len (rstrip (or_empty s1))
                        /\ (index a = -2 -> 2 <= len (rstrip (or_empty s1))))
              (trace (ensure_terminal_period s1)).
Proof.
  intros Hone. split; [|split].
  - destruct (ensure_terminal_period_runs s0) as (r & t & E & _).
    exists r. now rewrite E.
  - destruct (ensure_terminal_period_runs s0) as (r & t & E & Hrun).
    rewrite E. unfold trace. simpl.
    inversion Hrun as [Hs | body c Hs | body c Hs | c Hs
                      | body p c Hs | body p c Hs];
      subst t; rewrite ?Hone; try reflexivity.
    + rewrite Hs in Hone. discriminate Hone.
    + rewrite Hs, len_app in Hone. unfold len in Hone. simpl in Hone. lia.
    + rewrite Hs, len_app in Hone. unfold len in Hone. simpl in Hone. lia.
  - intros s1.
    destruct (ensure_terminal_period_runs s1) as (r & t & E & Hrun).
    rewrite E. unfold trace. simpl.
    set (s := rstrip (or_empty s1)) in *.
    assert (Hlast : forall body (c : Z), s = body ++ [c] -> 1 <= len s).
    { intros body c ->. rewrite len_app. unfold len. simpl. lia. }
    assert (Hprev : forall body (p c : Z), s = body ++ [p; c] -> 2 <= len s).
    { intros body p c ->. rewrite len_app. unfold len. simpl. lia. }
    inversion Hrun as [Hs | body c Hs | body c Hs | c Hs
                      | body p c Hs | body p c Hs]; subst t.
    + constructor.
    + specialize (Hlast _ _ Hs). repeat constructor; simpl; lia.
    + specialize (Hlast _ _ Hs). repeat constructor; simpl; lia.
    + specialize (Hlast [] c Hs). repeat constructor; simpl; lia.
    + specialize (Hprev _ _ _ Hs). repeat constructor; simpl; lia.
    + specialize (Hprev _ _ _ Hs). repeat constructor; simpl; lia.
Qed.

Lemma ensure_terminal_period_single_char_witness :
  len (@rstrip ucd (or_empty (Some [34]))) = 1
  /\ trace (@ensure_terminal_period ucd (Some [34])) = [Access 1 (-1)].
Proof.
  split; [reflexivity |].
  apply (ensure_terminal_period_single_char ucd (Some [34])). reflexivity.
Defined.

(** C10: when the stripped string is not empty, the result ends with one of
    the three terminators, or with a closing quote that follows one. *)
Theorem ensure_terminal_period_ends (U : Unicode) (s0 : option pystr) :
  rstrip (or_empty s0) <> [] ->
  exists r, result (ensure_terminal_period s0) = Ok r /\ ends_sentence r.
Proof.
  intros Hne.
  destruct (ensure_terminal_period_runs s0) as (r & t & E & Hrun).
  exists r. split; [now rewrite E |].
  unfold ends_sentence.
  inversion Hrun as [Hs | body c Hs Ht | body c Hs Ht Hq | c Hs Ht Hq
                    | body p c Hs Ht Hq Hp | body p c Hs Ht Hq Hp]; subst.
  - contradiction.
  - exists body, c. split; [exact Hs | now left].
  - exists (rstrip (or_empty s0)), 46. split; [reflexivity | now left].
  - exists [46], c. split; [reflexivity |]. right. split; [exact Hq |].
    exists [], 46. split; reflexivity.
  - exists (body ++ [p]), c. split.
    + rewrite Hs. now rewrite <- List.app_assoc.
    + right. split; [exact Hq |]. exists body, p. now split.
  - exists (body ++ [p; 46]), c. split.
    + now rewrite <- !List.app_assoc.
    + right. split; [exact Hq |]. exists (body ++ [p]), 46. split.
      * now rewrite <- List.app_assoc.
      * reflexivity.
Qed.

Lemma ensure_terminal_period_ends_witness :
  @rstrip ucd (or_empty (Some (lit "done" ++ [34]))) <> []
  /\ exists r,
       result (@ensure_terminal_period ucd (Some (lit "done" ++ [34]))) = Ok r
       /\ ends_sentence r.
Proof.
  split; [vm_compute; discriminate |].
  apply (ensure_terminal_period_ends ucd (Some (lit "done" ++ [34]))).
  vm_compute. discriminate.
Defined.

(** ** Sentence case *)

Lemma conformant_marks (U : Unicode) :
  ascii_conformant U = true -> marks_not_letters.
Proof.
  intros Hc. unfold marks_not_letters, sentence_marks.
  assert (H : forall c, is_ascii c = true -> ascii_isalpha c = false ->
                        negb (isalpha [c]) = true).
  { intros c Hc1 Hc2. simpl.
    destruct (conformant_char Hc c Hc1) as (-> & _). now rewrite Hc2. }
  cbn [forallb]. unfold lit. simpl map.
  rewrite !H by reflexivity. reflexivity.
Qed.

(** C4: for every input, [None] included, the function returns without an
    exception; its value is the lower-cased string in which exactly the
    letters that open a sentence (the first letter after the start, and the
    first letter after each of . ! ? :) are upper-cased, which is the walk
    with the flag that other characters leave unchanged.  The empty string
    gives the empty string, "hello. world" gives "Hello. World" and
    "a b: c" gives "A b: C". *)
Theorem to_sentence_case_correct (U : Unicode) (text : option pystr) :
  ascii_conformant U = true ->
  result (to_sentence_case text) = Ok (sentence_case_spec (or_empty text))
  /\ sentence_case_spec (or_empty text)
     = join (walk true (chars_of (lowered (or_empty text))))
  /\ result (to_sentence_case None) = Ok []
  /\ result (to_sentence_case (Some [])) = Ok []
  /\ result (to_sentence_case (Some (lit "hello. world")))
     = Ok (lit "Hello. World")
  /\ result (to_sentence_case (Some (lit "a b: c"))) = Ok (lit "A b: C").
Proof.
  intros Hc. pose proof (conformant_marks U Hc) as Hm.
  split; [|split; [|split; [|split; [|split]]]].
  - rewrite to_sentence_case_walk. f_equal. now apply walk_spec.
  - symmetry. now apply walk_spec.
  - now rewrite to_sentence_case_walk.
  - now rewrite to_sentence_case_walk.
  - now rewrite (to_sentence_case_ascii Hc) by reflexivity.
  - now rewrite (to_sentence_case_ascii Hc) by reflexivity.
Qed.

Lemma to_sentence_case_correct_witness :
  ascii_conformant ucd = true
  /\ result (@to_sentence_case ucd (Some [105; 223; 46; 32; 223]))
     = Ok (@sentence_case_spec ucd [105; 223; 46; 32; 223]).
Proof.
  split; [reflexivity |].
  apply (to_sentence_case_correct ucd (Some [105; 223; 46; 32; 223])).
  reflexivity.
Defined.

(** C5 as stated fails: the sharp s becomes SS, and SS becomes Ss. *)
Lemma to_sentence_case_not_idempotent :
  result (r <- @to_sentence_case ucd (Some [223]) ;;
          @to_sentence_case ucd (Some r))
  <> result (@to_sentence_case ucd (Some [223])).
Proof. vm_compute. discriminate. Qed.

(** C5, amended: applying the function to its own result gives that result
    again, for every string such that the function returns unchanged the
    upper-case form of every letter that it capitalises (with the flag off
    at its end), and lower-casing leaves unchanged every character of the
    lower-cased string that it does not capitalise.  A sharp s that opens
    a sentence is excluded (its upper-case form SS becomes Ss); a sharp s
    elsewhere, the capital I with dot above, and every ASCII string are
    not. *)
Theorem to_sentence_case_idempotent_recasing (U : Unicode) (s : pystr) :
  recasing_stable s = true ->
  result (r <- to_sentence_case (Some s) ;; to_sentence_case (Some r))
  = result (to_sentence_case (Some s))
  /\ (ascii_conformant U = true ->
      forall s' : pystr,
        forallb is_ascii s' = true -> recasing_stable s' = true).
Proof.
  intros Hs. split.
  - unfold recasing_stable in Hs. apply andb_prop in Hs as [Hk Hc].
    pose proof (to_sentence_case_walk (Some s)) as Hrun.
    simpl or_empty in Hrun.
    rewrite (result_bind _ _ _ Hrun), Hrun, to_sentence_case_walk.
    simpl or_empty. f_equal.
    exact (proj1 (rewalk (lowered s) true Hk Hc)).
  - intros Hc s' Hs'. apply stably_recasing. now apply ascii_stably_cased.
Qed.

Lemma to_sentence_case_idempotent_recasing_witness :
  @recasing_stable ucd sharp_s_inside = true
  /\ @recasing_stable ucd [97; 304] = true
  /\ result (r <- @to_sentence_case ucd (Some sharp_s_inside) ;;
             @to_sentence_case ucd (Some r))
     = result (@to_sentence_case ucd (Some sharp_s_inside)).
Proof.
  split; [reflexivity |]. split; [reflexivity |].
  apply (to_sentence_case_idempotent_recasing ucd sharp_s_inside).
  reflexivity.
Defined.

(** C9 as stated fails: the result for the sharp s alone has two
    characters, and so has the result for the capital I with dot above
    alone. *)
Lemma to_sentence_case_changes_length :
  (~ exists r,
       result (@to_sentence_case ucd (Some [223])) = Ok r
       /\ length r = length [223])
  /\ (~ exists r,
         result (@to_sentence_case ucd (Some [304])) = Ok r
         /\ length r = length [304]).
Proof.
  split; intros (r & E & Hlen); vm_compute in E; injection E as <-;
    discriminate Hlen.
Qed.

(** C9, amended: when every letter of the string has a one-character
    lower-case form and every letter that the function capitalises a
    one-character upper-case form ([None] counting as the empty string),
    the result has the length of the input; at every position a character
    other than a letter is the one of the input, and a letter is the
    lower-case form of the one of the input or the upper-case form of that.
    A sharp s that opens no sentence is allowed, and every ASCII string is
    such a string. *)
Theorem to_sentence_case_shape_openers (U : Unicode) (text : option pystr) :
  openers_single_cased (or_empty text) = true ->
  (exists r,
     result (to_sentence_case text) = Ok r
     /\ length r = length (or_empty text)
     /\ Forall2 case_variant (or_empty text) r)
  /\ (ascii_conformant U = true ->
      forall s' : pystr,
        forallb is_ascii s' = true -> openers_single_cased s' = true).
Proof.
  intros Hs. split.
  - exists (char_walk true (map lower1 (or_empty text))).
    unfold openers_single_cased in Hs. apply andb_prop in Hs as [Hl Hu].
    rewrite (lowered_chars _ Hl) in Hu.
    split; [|split].
    + rewrite to_sentence_case_walk, (lowered_chars _ Hl).
      now rewrite (walk_openers _ _ Hu).
    + now rewrite char_walk_length, length_map.
    + now apply char_walk_case_variant_openers.
  - intros Hc s' Hs'. apply single_cased_openers, stably_single.
    now apply ascii_stably_cased.
Qed.

Lemma to_sentence_case_shape_openers_witness :
  @openers_single_cased ucd (or_empty (Some sharp_s_inside)) = true
  /\ exists r,
       result (@to_sentence_case ucd (Some sharp_s_inside)) = Ok r
       /\ length r = length (or_empty (Some sharp_s_inside))
       /\ Forall2 (@case_variant ucd) (or_empty (Some sharp_s_inside)) r.
Proof.
  split; [reflexivity |].
  apply (to_sentence_case_shape_openers ucd (Some sharp_s_inside)).
  reflexivity.
Defined.

(** ** Heading levels *)

Section Classify.
Context {U : Unicode}.

Lemma guess_heading_level_trimmed (styleLabel text : option pystr) :
  guess_heading_level styleLabel text
  = level_code (classify_trimmed styleLabel text).
Proof.
  unfold guess_heading_level, classify_trimmed, classify_label.
  repeat match goal with
         | |- context [if ?b then _ else _] => destruct b
         end; reflexivity.
Qed.

(** For a label without white space around it the two agree. *)
Lemma classify_stated_trimmed (styleLabel text : option pystr) :
  strip (lower (or_empty styleLabel)) = lower (or_empty styleLabel) ->
  classify_stated styleLabel text = classify_trimmed styleLabel text.
Proof. unfold classify_stated, classify_trimmed. now intros ->. Qed.

End Classify.

(** C6 as stated fails: the label " h2", with a space in front, contains
    no long marker and is not "h2", yet its level is that of H2. *)
Lemma guess_heading_level_trims_label :
  @guess_heading_level ucd (Some (lit " h2")) (Some (lit "x")) = level_code H2
  /\ @classify_stated ucd (Some (lit " h2")) (Some (lit "x")) = NoLevel
  /\ @guess_heading_level ucd (Some (lit " h2")) (Some (lit "x"))
     <> level_code (@classify_stated ucd (Some (lit " h2")) (Some (lit "x"))).
Proof.
  split; [vm_compute; reflexivity |]. split; [vm_compute; reflexivity |].
  vm_compute. discriminate.
Qed.

(** C6, amended: the level is 0 whenever the stripped text is empty,
    whatever the label; otherwise the label is lower-cased and stripped of
    the white space around it, and the first marker in the order H2, H3,
    H4, H5 that the result contains ("heading 2" ...) or equals ("h2" ...)
    gives the level, any other label giving 0. *)
Theorem guess_heading_level_classifies (U : Unicode)
    (styleLabel text : option pystr) :
  guess_heading_level styleLabel text
  = level_code
      (if bool_decide (strip (or_empty text) = []) then NoLevel
       else classify_label (strip (lower (or_empty styleLabel))))
  /\ @guess_heading_level ucd (Some (lit "Heading 2")) (Some (lit "Title"))
     = level_code H2
  /\ @guess_heading_level ucd (Some (lit "heading 5")) (Some (lit "x"))
     = level_code H5
  /\ @guess_heading_level ucd (Some (lit "Normal")) (Some (lit "text"))
     = level_code NoLevel
  /\ @guess_heading_level ucd (Some (lit "Heading 2")) (Some (lit "  "))
     = level_code NoLevel
  /\ @guess_heading_level ucd (Some (lit "H3 under Heading 2"))
       (Some (lit "x"))
     = level_code H2.
Proof.
  split; [apply guess_heading_level_trimmed |].
  repeat split; vm_compute; reflexivity.
Qed.

(** ** The name of the download *)

(** C8: the name is computed from the file name without its extension,
    stripped on the right: when its upper-cased form ends with INPUT the
    last five characters are replaced by OUTPUT, otherwise _OUTPUT is
    appended; the extension .docx follows in both cases. *)
Theorem out_name_derived (U : Unicode) (P : OsPath) (uploaded_name : pystr) :
  let base_name := rstrip (fst (splitext uploaded_name)) in
  out_name uploaded_name
  = (if endswith (upper base_name) (lit "INPUT")
     then take (length base_name - 5) base_name ++ lit "OUTPUT"
     else base_name ++ lit "_OUTPUT") ++ lit ".docx"
  /\ base_name
     = take (length base_name - 5) base_name
       ++ drop (length base_name - 5) base_name
  /\ @out_name ucd posixpath (lit "notes_input.docx")
     = lit "notes_OUTPUT.docx"
  /\ @out_name ucd posixpath (lit "Q3 INPUT .docx") = lit "Q3 OUTPUT.docx"
  /\ @out_name ucd posixpath (lit "notes.v2.docx")
     = lit "notes.v2_OUTPUT.docx".
Proof.
  intros base_name. split; [|split].
  - unfold out_name. fold base_name.
    destruct (endswith (upper base_name) (lit "INPUT")).
    + rewrite <- List.app_assoc. f_equal.
      unfold slice_to. change (-5 <? 0) with true. cbv iota.
      change firstn with (@take Z). f_equal. unfold len. lia.
    + now rewrite <- List.app_assoc.
  - now rewrite take_drop.
  - repeat split; vm_compute; reflexivity.
Qed.

(** * Further properties of the code *)

(** ** [ensure_terminal_period] *)

Section TerminalPeriodMore.
Context {U : Unicode}.

Lemma lstrip_head (s : pystr) (c : Z) (rest : pystr) :
  lstrip s = c :: rest -> char_isspace c = false.
Proof.
  induction s as [|a s IH]; simpl; [discriminate |].
  destruct (char_isspace a) eqn:E; [exact IH |].
  intros H. injection H as -> _. exact E.
Qed.

Lemma rstrip_last (s body : pystr) (c : Z) :
  rstrip s = body ++ [c] -> char_isspace c = false.
Proof.
  unfold rstrip. intros H.
  apply (f_equal (@rev Z)) in H.
  rewrite rev_involutive, rev_app_distr in H. simpl in H.
  now apply lstrip_head in H.
Qed.

Lemma rstrip_snoc_keep (x : pystr) (c : Z) :
  char_isspace c = false -> rstrip (x ++ [c]) = x ++ [c].
Proof.
  intros E. unfold rstrip. rewrite rev_app_distr. simpl. rewrite E.
  simpl. now rewrite rev_involutive.
Qed.

(** A run adds nothing, or one period: at the end, or before the quote
    that ends the string. *)
Lemma etp_run_adds (s r : pystr) (t : list access) :
  etp_run s r t ->
  r = s
  \/ exists front back,
       s = front ++ back /\ r = front ++ lit "." ++ back
       /\ (back = []
           \/ exists c, back = [c] /\ str_in [c] closing_quotes = true).
Proof.
  intros Hrun.
  inversion Hrun as [Hs | body c Hs Ht | body c Hs Ht Hq | c Hs Ht Hq
                    | body p c Hs Ht Hq Hp | body p c Hs Ht Hq Hp]; subst.
  - now left.
  - now left.
  - right. exists (body ++ [c]), []. rewrite !app_nil_r. auto.
  - right. exists [], [c]. repeat split; eauto.
  - now left.
  - right. exists (body ++ [p]), [c]. rewrite <- !List.app_assoc.
    repeat split; eauto.
Qed.

Lemma etp_run_ends (s r : pystr) (t : list access) :
  etp_run s r t -> s <> [] -> ends_sentence r.
Proof.
  intros Hrun Hne. unfold ends_sentence.
  inversion Hrun as [Hs | body c Hs Ht | body c Hs Ht Hq | c Hs Ht Hq
                    | body p c Hs Ht Hq Hp | body p c Hs Ht Hq Hp]; subst.
  - contradiction.
  - exists body, c. split; [reflexivity | now left].
  - exists (body ++ [c]), 46. split; [reflexivity | now left].
  - exists [46], c. split; [reflexivity |]. right. split; [exact Hq |].
    exists [], 46. split; reflexivity.
  - exists (body ++ [p]), c. split.
    + now rewrite <- List.app_assoc.
    + right. split; [exact Hq |]. exists body, p. now split.
  - exists (body ++ [p; 46]), c. split.
    + now rewrite <- !List.app_assoc.
    + right. split; [exact Hq |]. exists (body ++ [p]), 46. split.
      * now rewrite <- List.app_assoc.
      * reflexivity.
Qed.

(** The result of a run on a stripped string has no white space at its
    end, when the period is no white space. *)
Lemma etp_run_stripped (s r : pystr) (t : list access) :
  char_isspace 46 = false ->
  etp_run s r t -> rstrip s = s -> rstrip r = r.
Proof.
  intros Hdot Hrun Hfix.
  inversion Hrun as [Hs | body c Hs Ht | body c Hs Ht Hq | c Hs Ht Hq
                    | body p c Hs Ht Hq Hp | body p c Hs Ht Hq Hp]; subst;
    try exact Hfix.
  - now apply rstrip_snoc_keep.
  - apply (rstrip_snoc_keep [46]). now apply (rstrip_last [c] []).
  - replace (body ++ [p] ++ lit "." ++ [c])
      with ((body ++ [p; 46]) ++ [c]) by now rewrite <- !List.app_assoc.
    apply rstrip_snoc_keep.
    apply (rstrip_last (body ++ [p; c]) (body ++ [p])).
    rewrite Hfix. now rewrite <- List.app_assoc.
Qed.

(** A stripped string that ends a sentence is returned as it is. *)
Lemma ensure_terminal_period_fixed (r : pystr) :
  rstrip r = r -> ends_sentence r ->
  result (ensure_terminal_period (Some r)) = Ok r.
Proof.
  intros Hfix (body & c & -> & Hc).
  destruct (ensure_terminal_period_runs (Some (body ++ [c])))
    as (r' & t' & E & Hrun).
  rewrite E. unfold result. simpl. f_equal.
  simpl or_empty in Hrun. rewrite Hfix in Hrun.
  assert (Hquote : str_in [c] closing_quotes = true ->
                   str_in [c] terminal = false).
  { intros Hq. apply closing_quotes_chars in Hq as [-> | ->]; reflexivity. }
  inversion Hrun as [Hs | body0 c0 Hs Ht | body0 c0 Hs Ht Hq | c0 Hs Ht Hq
                    | body0 p0 c0 Hs Ht Hq Hp | body0 p0 c0 Hs Ht Hq Hp];
    try reflexivity.
  - apply app_inj_tail in Hs as [-> ->].
    destruct Hc as [Hc | [Hc _]]; congruence.
  - apply (app_inj_tail body []) in Hs as [-> ->].
    destruct Hc as [Hc | [_ (body' & p & Hb & _)]]; [congruence |].
    destruct body'; discriminate Hb.
  - change (body0 ++ [p0; c0]) with (body0 ++ [p0] ++ [c0]) in Hs.
    rewrite List.app_assoc in Hs.
    apply app_inj_tail in Hs as [-> ->].
    destruct Hc as [Hc | [_ (body' & p & Hb & Hpt)]]; [congruence |].
    apply app_inj_tail in Hb as [_ ->]. congruence.
Qed.

End TerminalPeriodMore.

(** X1: when the period is no white space, the result of the function has
    no white space at its end, and the function returns it unchanged: the
    function is idempotent. *)
Theorem ensure_terminal_period_idempotent (U : Unicode) (s0 : option pystr) :
  char_isspace 46 = false ->
  exists r,
    result (ensure_terminal_period s0) = Ok r
    /\ rstrip r = r
    /\ result (r1 <- ensure_terminal_period s0 ;;
               ensure_terminal_period (Some r1)) = Ok r.
Proof.
  intros Hdot.
  destruct (ensure_terminal_period_runs s0) as (r & t & E & Hrun).
  assert (Hres : result (ensure_terminal_period s0) = Ok r) by now rewrite E.
  assert (Hstripped : rstrip r = r)
    by exact (etp_run_stripped _ _ _ Hdot Hrun (rstrip_idem _)).
  exists r. split; [exact Hres |]. split; [exact Hstripped |].
  rewrite (result_bind _ _ _ Hres).
  destruct (decide (rstrip (or_empty s0) = [])) as [Hempty | Hne].
  - rewrite Hempty in Hrun. inversion Hrun as [Hs | | | | |];
      try (match goal with H : [] = _ ++ _ |- _ =>
             apply app_cons_not_nil in H; contradiction end);
      try discriminate.
    subst. reflexivity.
  - apply ensure_terminal_period_fixed; [exact Hstripped |].
    exact (etp_run_ends _ _ _ Hrun Hne).
Qed.

Lemma ensure_terminal_period_idempotent_witness :
  @char_isspace ucd 46 = false
  /\ exists r,
       result (@ensure_terminal_period ucd (Some (lit "it's " ++ [39] ++ lit "ok' ")))
       = Ok r
       /\ @rstrip ucd r = r
       /\ result (r1 <- @ensure_terminal_period ucd
                          (Some (lit "it's " ++ [39] ++ lit "ok' ")) ;;
                  @ensure_terminal_period ucd (Some r1)) = Ok r.
Proof.
  split; [reflexivity |].
  apply (ensure_terminal_period_idempotent ucd). reflexivity.
Defined.

(** X2: the function returns the input stripped on the right, unchanged or
    with one period added, at the end or before the straight quote that
    ends it; no other character is added, removed or changed. *)
Theorem ensure_terminal_period_adds_one_period (U : Unicode)
    (s0 : option pystr) :
  exists r,
    result (ensure_terminal_period s0) = Ok r
    /\ (r = rstrip (or_empty s0)
        \/ exists front back,
             rstrip (or_empty s0) = front ++ back
             /\ r = front ++ lit "." ++ back
             /\ (back = [] \/ back = [34] \/ back = [39])).
Proof.
  destruct (ensure_terminal_period_runs s0) as (r & t & E & Hrun).
  exists r. split; [now rewrite E |].
  destruct (etp_run_adds _ _ _ Hrun)
    as [-> | (front & back & Hs & Hr & Hback)]; [now left |].
  right. exists front, back. repeat split; try assumption.
  destruct Hback as [-> | (c & -> & Hq)]; [now left |].
  right. apply closing_quotes_chars in Hq as [-> | ->]; auto.
Qed.

(** ** [to_sentence_case] *)

Section SentenceCaseMore.
Context {U : Unicode}.

Lemma lowered_no_letters (s : pystr) :
  forallb (fun c => negb (char_isalpha c)) s = true -> lowered s = s.
Proof.
  induction s as [|c s IH]; [reflexivity |]. simpl. intros H.
  apply andb_prop in H as [Hc Hs]. apply negb_true_iff in Hc.
  now rewrite lowered_cons, Hc, (IH Hs).
Qed.

Lemma walk_no_letters (s : pystr) :
  forallb (fun c => negb (char_isalpha c)) s = true ->
  forall cap_next, join (walk cap_next (chars_of s)) = s.
Proof.
  unfold join, chars_of. induction s as [|c s IH]; [reflexivity |].
  simpl. intros H cap. apply andb_prop in H as [Hc Hs].
  apply negb_true_iff in Hc. rewrite Hc, andb_false_r. simpl.
  destruct (str_in [c] sentence_marks); simpl; now rewrite (IH Hs).
Qed.

(** After a mark the walk starts afresh. *)
Lemma walk_after_mark (m : pystr) (rest : list pystr) :
  isalpha m = false -> str_in m sentence_marks = true ->
  forall (front : list pystr) (cap_next : bool),
    walk cap_next (front ++ m :: rest)
    = walk cap_next (front ++ [m]) ++ walk true rest.
Proof.
  intros Ha Hm front. induction front as [|ch front IH]; intros cap.
  - cbn [walk app]. rewrite Ha, andb_false_r, Hm. reflexivity.
  - cbn [walk app].
    destruct (cap && isalpha ch); [now rewrite IH |].
    destruct (str_in ch sentence_marks); now rewrite IH.
Qed.

End SentenceCaseMore.

(** X3: a string without letters, such as one of digits and punctuation,
    is returned unchanged. *)
Theorem to_sentence_case_no_letters (U : Unicode) (s : pystr) :
  forallb (fun c => negb (char_isalpha c)) s = true ->
  result (to_sentence_case (Some s)) = Ok s.
Proof.
  intros H. rewrite to_sentence_case_walk. simpl or_empty.
  rewrite (lowered_no_letters s H). now rewrite (walk_no_letters s H).
Qed.

Lemma to_sentence_case_no_letters_witness :
  forallb (fun c => negb (@char_isalpha ucd c)) (lit "12.5% (2024): ...") = true
  /\ result (@to_sentence_case ucd (Some (lit "12.5% (2024): ...")))
     = Ok (lit "12.5% (2024): ...").
Proof.
  split; [reflexivity |].
  apply (to_sentence_case_no_letters ucd). reflexivity.
Defined.

(** X4: sentences are cased one by one: when no mark is a letter and the
    first part ends with one of the marks . ! ? :, the result for the whole
    string is the result for the first part followed by the result for the
    rest. *)
Theorem to_sentence_case_after_mark (U : Unicode) (a : pystr) (m : Z)
    (b : pystr) :
  marks_not_letters ->
  is_mark [m] = true ->
  exists ra rb,
    result (to_sentence_case (Some (a ++ [m]))) = Ok ra
    /\ result (to_sentence_case (Some b)) = Ok rb
    /\ result (to_sentence_case (Some (a ++ [m] ++ b))) = Ok (ra ++ rb).
Proof.
  intros Hmarks Hm.
  assert (Ha : isalpha [m] = false).
  { destruct (isalpha [m]) eqn:E; [|reflexivity].
    rewrite (letter_not_mark [m] Hmarks E) in Hm. discriminate Hm. }
  assert (Ha' : char_isalpha m = false) by now rewrite <- isalpha_char.
  exists (join (walk true (chars_of (lowered a) ++ [[m]]))),
         (join (walk true (chars_of (lowered b)))).
  split; [|split].
  - rewrite to_sentence_case_walk. simpl or_empty.
    rewrite lowered_app, lowered_cons, Ha', chars_of_app. reflexivity.
  - apply to_sentence_case_walk.
  - rewrite to_sentence_case_walk. simpl or_empty. f_equal.
    change (a ++ [m] ++ b) with (a ++ m :: b).
    rewrite lowered_app, lowered_cons, Ha', chars_of_app.
    change (chars_of ([m] ++ lowered b)) with ([m] :: chars_of (lowered b)).
    rewrite (walk_after_mark [m] _ Ha Hm). apply join_app.
Qed.

Lemma to_sentence_case_after_mark_witness :
  @marks_not_letters ucd
  /\ @is_mark [33] = true
  /\ exists ra rb,
       result (@to_sentence_case ucd (Some (lit "stop" ++ [33]))) = Ok ra
       /\ result (@to_sentence_case ucd (Some (lit " go on"))) = Ok rb
       /\ result (@to_sentence_case ucd
                    (Some (lit "stop" ++ [33] ++ lit " go on")))
          = Ok (ra ++ rb).
Proof.
  split; [reflexivity |]. split; [reflexivity |].
  apply (to_sentence_case_after_mark ucd (lit "stop") 33 (lit " go on"));
    reflexivity.
Defined.

(** X5: on ASCII strings the result does not depend on the case of the
    input: two strings with the same lower-case form have the same
    result. *)
Theorem to_sentence_case_ignores_case (U : Unicode) (s s' : pystr) :
  ascii_conformant U = true ->
  forallb is_ascii s = true ->
  forallb is_ascii s' = true ->
  map ascii_lower s = map ascii_lower s' ->
  result (to_sentence_case (Some s)) = result (to_sentence_case (Some s')).
Proof.
  intros Hc Hs Hs' Hsame.
  rewrite (to_sentence_case_ascii Hc s Hs), (to_sentence_case_ascii Hc s' Hs').
  now rewrite Hsame.
Qed.

Lemma to_sentence_case_ignores_case_witness :
  ascii_conformant ucd = true
  /\ result (@to_sentence_case ucd (Some (lit "KEY POINTS: read ME")))
     = result (@to_sentence_case ucd (Some (lit "key points: READ me"))).
Proof.
  split; [reflexivity |].
  apply (to_sentence_case_ignores_case ucd); reflexivity.
Defined.

(** ** [guess_heading_level] *)

Lemma startswith_In (s p : pystr) :
  startswith s p = true -> forall c, In c p -> In c s.
Proof.
  revert s. induction p as [|b p IH]; intros s H c Hc; [destruct Hc |].
  destruct s as [|a s]; [discriminate H |]. simpl in H.
  apply andb_prop in H as [Hab Hrest]. apply bool_decide_eq_true in Hab.
  subst b. destruct Hc as [<- | Hc]; [now left |].
  right. now apply (IH s).
Qed.

Lemma contains_In (hay needle : pystr) :
  contains hay needle = true -> forall c, In c needle -> In c hay.
Proof.
  induction hay as [|a hay IH]; simpl; intros H c Hc.
  - rewrite orb_false_r in H. exact (startswith_In [] needle H c Hc).
  - apply orb_prop in H as [H | H].
    + exact (startswith_In (a :: hay) needle H c Hc).
    + right. exact (IH H c Hc).
Qed.

(** X6: a style label that, lower-cased and stripped, holds none of the
    digits 2, 3, 4, 5 has level 0, whatever the text. *)
Theorem guess_heading_level_needs_digit (U : Unicode)
    (style_label text : option pystr) :
  forallb no_level_digit (strip (lower (or_empty style_label))) = true ->
  guess_heading_level style_label text = 0.
Proof.
  intros Hno. unfold guess_heading_level.
  set (label := strip (lower (or_empty style_label))) in *.
  assert (Hdigit : forall d marker short,
             no_level_digit d = false -> In d marker -> In d short ->
             contains label marker || bool_decide (label = short) = false).
  { intros d marker short Hd Hm Hs.
    rewrite forallb_forall in Hno.
    destruct (contains label marker) eqn:Ec.
    - apply (contains_In _ _ Ec) in Hm. apply Hno in Hm. congruence.
    - simpl. apply bool_decide_eq_false. intros ->.
      apply Hno in Hs. congruence. }
  rewrite (Hdigit 50), (Hdigit 51), (Hdigit 52), (Hdigit 53);
    try reflexivity; try (vm_compute; tauto).
  now destruct (bool_decide _).
Qed.

Lemma guess_heading_level_needs_digit_witness :
  forallb no_level_digit
    (@strip ucd (@lower ucd (or_empty (Some (lit " Heading 1 "))))) = true
  /\ @guess_heading_level ucd (Some (lit " Heading 1 ")) (Some (lit "Title"))
     = 0.
Proof.
  split; [reflexivity |].
  apply (guess_heading_level_needs_digit ucd). reflexivity.
Defined.

(** ** The renderers and [transform_docx] *)

Lemma has_keys_insert (counts : gmap string Z) (key : string) (v : Z) :
  has_keys counts -> has_keys (<[key := v]> counts).
Proof.
  intros H k key' Hin. rewrite lookup_insert_is_Some'.
  right. exact (H k key' Hin).
Qed.

(** Adding one under the key of level [l] adds one to the count of level
    [l] and nothing to the others. *)
Lemma lookup_incremented (counts : gmap string Z) (l k : Z)
    (key key' : string) (v v' : Z) :
  In (l, key) level_keys -> In (k, key') level_keys ->
  counts !! key = Some v -> counts !! key' = Some v' ->
  <[key := v + 1]> counts !! key'
  = Some (v' + if decide (l = k) then 1 else 0).
Proof.
  unfold level_keys. simpl. intros Hl Hk E E'.
  destruct Hl as [Hl|[Hl|[Hl|[Hl|[]]]]]; injection Hl as <- <-;
    destruct Hk as [Hk|[Hk|[Hk|[Hk|[]]]]]; injection Hk as <- <-;
    simpl;
    first [ rewrite lookup_insert_eq; f_equal; congruence
          | rewrite lookup_insert_ne by discriminate;
            rewrite E'; f_equal; lia ].
Qed.

Section Blocks.
Context {U : Unicode}.

Lemma format_first_run_bullet (sty shown : pystr) :
  result (format_first_run (single_spaced (new_paragraph shown (Some sty))))
  = Ok (bullet_paragraph sty shown None).
Proof.
  unfold format_first_run, bullet_paragraph, new_paragraph. simpl.
  destruct (bool_decide (shown = [])); reflexivity.
Qed.

Lemma add_heading_run (out : Document) (t : pystr) :
  result (add_heading out (Some t))
  = Ok (out ++ [heading_paragraph true (upper t); spacer]).
Proof.
  unfold add_heading, _add_visible_blank_line, result. simpl.
  now rewrite <- List.app_assoc.
Qed.

Lemma add_subheading_all_caps_run (out : Document) (t : pystr) :
  result (add_subheading_all_caps out (Some t))
  = Ok (out ++ [heading_paragraph false (upper t); spacer]).
Proof.
  unfold add_subheading_all_caps, _add_visible_blank_line, result. simpl.
  now rewrite <- List.app_assoc.
Qed.

Lemma period_option_returns (flag : bool) (cased : pystr) :
  exists shown,
    result (if flag then ensure_terminal_period (Some cased) else ret cased)
    = Ok shown.
Proof.
  destruct flag; [|now eexists].
  destruct (ensure_terminal_period_runs (Some cased)) as (r & t & E & _).
  exists r. now rewrite E.
Qed.

Lemma add_bullet_run (out : Document) (t : pystr) (indent flag : bool) :
  exists cased shown,
    result (to_sentence_case (Some t)) = Ok cased
    /\ result (if flag then ensure_terminal_period (Some cased)
               else ret cased) = Ok shown
    /\ result (add_bullet out (Some t) indent flag)
       = Ok (out ++ [bullet_paragraph
                       (if indent then lit "List Bullet 2"
                        else lit "List Bullet") shown None;
                     spacer]).
Proof.
  pose proof (to_sentence_case_walk (Some t)) as Hcased.
  destruct (period_option_returns flag
              (join (walk true (chars_of (lowered (or_empty (Some t)))))))
    as [shown Hshown].
  eexists _, shown. split; [exact Hcased |]. split; [exact Hshown |].
  unfold add_bullet, _add_visible_blank_line.
  rewrite (result_bind _ _ _ Hcased), (result_bind _ _ _ Hshown).
  rewrite (result_bind _ _ _ (format_first_run_bullet _ shown)).
  unfold result. simpl. now rewrite <- List.app_assoc.
Qed.

Lemma add_h5_bullet_run (out : Document) (t : pystr) :
  exists cased shown,
    result (to_sentence_case (Some t)) = Ok cased
    /\ result (ensure_terminal_period (Some cased)) = Ok shown
    /\ result (add_h5_bullet out (Some t))
       = Ok (out ++ [bullet_paragraph (lit "H5Subbullet") shown
                       (Some (1080, 360));
                     spacer]).
Proof.
  pose proof (to_sentence_case_walk (Some t)) as Hcased.
  destruct (period_option_returns true
              (join (walk true (chars_of (lowered (or_empty (Some t)))))))
    as [shown Hshown].
  eexists _, shown. split; [exact Hcased |]. split; [exact Hshown |].
  unfold add_h5_bullet, _add_visible_blank_line.
  rewrite (result_bind _ _ _ Hcased), (result_bind _ _ _ Hshown).
  rewrite (result_bind _ _ _ (format_first_run_bullet _ shown)).
  unfold result. simpl. now rewrite <- List.app_assoc.
Qed.

Lemma increment_run (counts : gmap string Z) (key : string) (v : Z) :
  counts !! key = Some v ->
  result (increment counts key) = Ok (<[key := v + 1]> counts).
Proof. unfold increment. now intros ->. Qed.

Lemma level_of_stripped (para : SourceParagraph) :
  guess_heading_level (style_name_or_empty para)
    (Some (strip (or_empty (text para))))
  = level_of para.
Proof. now rewrite guess_heading_level_stripped. Qed.

Lemma level_of_empty (para : SourceParagraph) :
  strip (or_empty (text para)) = [] -> level_of para = 0.
Proof.
  intros E. unfold level_of, guess_heading_level. now rewrite E.
Qed.

(** One paragraph: nothing at level 0, else its block, a spacer, and one
    more under the key of its level. *)
Lemma transform_step_run (flag : bool) (out : Document)
    (counts : gmap string Z) (para : SourceParagraph) :
  has_keys counts ->
  (level_of para = 0
   /\ result (transform_step flag (out, counts) para) = Ok (out, counts))
  \/ exists p key v,
       In (level_of para, key) level_keys
       /\ block_for flag (strip (or_empty (text para))) (level_of para) p
       /\ counts !! key = Some v
       /\ result (transform_step flag (out, counts) para)
          = Ok (out ++ [p; spacer], <[key := v + 1]> counts).
Proof.
  intros Hkeys. unfold transform_step.
  destruct (bool_decide (strip (or_empty (text para)) = [])) eqn:Etext.
  { apply bool_decide_eq_true in Etext. left.
    split; [now apply level_of_empty | reflexivity]. }
  rewrite level_of_stripped.
  pose proof (guess_heading_level_range (style_name para) (text para))
    as Hrange. fold (level_of para) in Hrange.
  set (t := strip (or_empty (text para))).
  destruct (level_of para =? 1) eqn:E1.
  { apply Z.eqb_eq in E1. rewrite E1. right.
    destruct (Hkeys 1 "H2"%string) as [v Hv]; [simpl; auto |].
    exists (heading_paragraph true (upper t)), "H2"%string, v.
    split; [simpl; auto |]. split; [constructor |]. split; [exact Hv |].
    rewrite (result_bind _ _ _ (add_heading_run out t)).
    now rewrite (result_bind _ _ _ (increment_run _ _ _ Hv)). }
  destruct (level_of para =? 2) eqn:E2.
  { apply Z.eqb_eq in E2. rewrite E2. right.
    destruct (Hkeys 2 "H3"%string) as [v Hv]; [simpl; auto |].
    exists (heading_paragraph false (upper t)), "H3"%string, v.
    split; [simpl; auto |]. split; [constructor |]. split; [exact Hv |].
    rewrite (result_bind _ _ _ (add_subheading_all_caps_run out t)).
    now rewrite (result_bind _ _ _ (increment_run _ _ _ Hv)). }
  destruct (level_of para =? 3) eqn:E3.
  { apply Z.eqb_eq in E3. rewrite E3. right.
    destruct (Hkeys 3 "H4"%string) as [v Hv]; [simpl; auto |].
    destruct (add_bullet_run out t true flag)
      as (cased & shown & Hc & Hs & Hrun).
    exists (bullet_paragraph (lit "List Bullet 2") shown None),
           "H4"%string, v.
    split; [simpl; auto |].
    split; [now apply (block_h4 flag t cased shown) |].
    split; [exact Hv |].
    rewrite (result_bind _ _ _ Hrun).
    now rewrite (result_bind _ _ _ (increment_run _ _ _ Hv)). }
  destruct (level_of para =? 4) eqn:E4.
  { apply Z.eqb_eq in E4. rewrite E4. right.
    destruct (Hkeys 4 "H5"%string) as [v Hv]; [simpl; auto 6 |].
    destruct (add_h5_bullet_run out t) as (cased & shown & Hc & Hs & Hrun).
    exists (bullet_paragraph (lit "H5Subbullet") shown (Some (1080, 360))),
           "H5"%string, v.
    split; [simpl; auto 6 |].
    split; [now apply (block_h5 flag t cased shown) |].
    split; [exact Hv |].
    rewrite (result_bind _ _ _ Hrun).
    now rewrite (result_bind _ _ _ (increment_run _ _ _ Hv)). }
  apply Z.eqb_neq in E1, E2, E3, E4. left.
  split; [simpl in Hrange; lia | reflexivity].
Qed.

Lemma count_level_cons (k : Z) (para : SourceParagraph)
    (rest : list SourceParagraph) :
  count_level k (para :: rest)
  = (if decide (level_of para = k) then 1 else 0) + count_level k rest.
Proof.
  unfold count_level. rewrite filter_cons.
  destruct (decide (level_of para = k)); unfold len; simpl; lia.
Qed.

(** The loop: the output grows by what the paragraphs render as, and each
    count by the number of paragraphs of its level. *)
Lemma for_each_paragraph_run (flag : bool) (src : list SourceParagraph) :
  forall (out : Document) (counts : gmap string Z),
    has_keys counts ->
    exists d counts',
      result (for_each_paragraph flag src (out, counts))
      = Ok (out ++ d, counts')
      /\ renders_as flag src d
      /\ forall k key v,
           In (k, key) level_keys -> counts !! key = Some v ->
           counts' !! key = Some (v + count_level k src).
Proof.
  induction src as [|para rest IH]; intros out counts Hkeys.
  - exists [], counts. rewrite app_nil_r. split; [reflexivity |].
    split; [constructor |]. intros k key v _ Hv.
    unfold count_level, len. simpl. now rewrite Z.add_0_r.
  - cbn [for_each_paragraph].
    destruct (transform_step_run flag out counts para Hkeys)
      as [[H0 Hstep] | (p & key & v & Hin & Hblock & Hv & Hstep)].
    + destruct (IH out counts Hkeys) as (d & counts' & Hrest & Hd & Hc).
      exists d, counts'. rewrite (result_bind _ _ _ Hstep).
      split; [exact Hrest |]. split; [now apply renders_skip |].
      intros k key v Hin Hv. rewrite count_level_cons.
      destruct (decide (level_of para = k)) as [<- | _].
      * exfalso. rewrite H0 in Hin. unfold level_keys in Hin. simpl in Hin.
        intuition discriminate.
      * rewrite Z.add_0_l. now apply (Hc k).
    + destruct (IH (out ++ [p; spacer]) (<[key := v + 1]> counts)
                  (has_keys_insert _ _ _ Hkeys))
        as (d & counts' & Hrest & Hd & Hc).
      exists (p :: spacer :: d), counts'.
      rewrite (result_bind _ _ _ Hstep).
      split; [rewrite Hrest; now rewrite <- List.app_assoc |].
      split.
      { apply renders_block; try assumption. intros H0. rewrite H0 in Hin.
        unfold level_keys in Hin. simpl in Hin. intuition discriminate. }
      intros k key' v' Hin' Hv'. rewrite count_level_cons.
      rewrite (Hc k key' _ Hin'
                 (lookup_incremented _ _ _ _ _ _ _ Hin Hin' Hv Hv')).
      f_equal. lia.
Qed.

Lemma zero_has_keys :
  has_keys (<["H2"%string := 0]> (<["H3"%string := 0]>
             (<["H4"%string := 0]> (<["H5"%string := 0]> ∅)))).
Proof.
  intros k key Hin. unfold level_keys in Hin. simpl in Hin.
  destruct Hin as [H|[H|[H|[H|[]]]]]; injection H as _ <-; now eexists.
Qed.

(** The transform returns, with what the source renders as and the number
    of paragraphs of each level. *)
Lemma transform_docx_run (flag : bool) (src : list SourceParagraph) :
  exists out counts,
    result (transform_docx src flag) = Ok (out, counts)
    /\ renders_as flag src out
    /\ forall k key,
         In (k, key) level_keys -> counts !! key = Some (count_level k src).
Proof.
  unfold transform_docx.
  destruct (for_each_paragraph_run flag src [] _ zero_has_keys)
    as (d & counts & Hrun & Hd & Hc).
  exists d, counts. split; [exact Hrun |]. split; [exact Hd |].
  intros k key Hin. rewrite (Hc k key 0 Hin); [f_equal; lia |].
  unfold level_keys in Hin. simpl in Hin.
  destruct Hin as [H|[H|[H|[H|[]]]]]; injection H as _ <-; reflexivity.
Qed.

End Blocks.

Section RendersAs.
Context {U : Unicode}.

Lemma block_not_spacer flag t k p : block_for flag t k p -> p ≠ spacer.
Proof. intros H. inversion H; subst; discriminate. Qed.

Lemma block_for_unique flag t k p q :
  block_for flag t k p -> block_for flag t k q -> p = q.
Proof.
  intros Hp Hq. inversion Hp; subst; inversion Hq; subst;
    try reflexivity;
    repeat match goal with
           | H : ?m = Ok ?a, H' : ?m = Ok ?b |- _ =>
               rewrite H in H'; injection H' as <-
           end;
    reflexivity.
Qed.

Lemma renders_as_unique flag src d1 :
  renders_as flag src d1 -> forall d2, renders_as flag src d2 -> d1 = d2.
Proof.
  induction 1 as [|para rest out H0 _ IH|para rest out p Hne Hp _ IH];
    intros d2 H2; inversion H2; subst; try reflexivity;
    try contradiction; try (now apply IH).
  f_equal; [eapply block_for_unique; eassumption |].
  f_equal. now apply IH.
Qed.

Lemma renders_as_app flag src1 d1 src2 d2 :
  renders_as flag src1 d1 -> renders_as flag src2 d2 ->
  renders_as flag (src1 ++ src2) (d1 ++ d2).
Proof.
  intros H1 H2. induction H1; simpl.
  - exact H2.
  - now apply renders_skip.
  - now apply renders_block.
Qed.

(** The blocks of the output, in the order of the paragraphs of a level
    other than 0; between them, the spacers. *)
Lemma renders_as_blocks flag src d :
  renders_as flag src d ->
  Forall2 (fun para p =>
             block_for flag (strip (or_empty (text para))) (level_of para) p)
          (filter (fun para => level_of para <> 0) src)
          (rendered_blocks d)
  /\ d = flat_map (fun b => [b; spacer]) (rendered_blocks d).
Proof.
  induction 1 as [|para rest out H0 _ [IH1 IH2]
                 |para rest out p Hne Hp _ [IH1 IH2]].
  - split; [constructor | reflexivity].
  - rewrite filter_cons_False by (intros H; now apply H).
    now split.
  - rewrite filter_cons_True by exact Hne.
    assert (Hblocks : rendered_blocks (p :: spacer :: out)
                      = p :: rendered_blocks out).
    { unfold rendered_blocks.
      rewrite filter_cons_True by exact (block_not_spacer _ _ _ _ Hp).
      now rewrite filter_cons_False by (intros H; now apply H). }
    rewrite Hblocks. split; [now constructor |].
    simpl. now rewrite <- IH2.
Qed.

Lemma count_level_app k src1 src2 :
  count_level k (src1 ++ src2) = count_level k src1 + count_level k src2.
Proof. unfold count_level. now rewrite filter_app, len_app. Qed.

Lemma paragraph_text_bullet sty shown indent :
  paragraph_text (bullet_paragraph sty shown indent) = shown.
Proof.
  unfold paragraph_text, bullet_paragraph, join. simpl.
  destruct (bool_decide (shown = [])) eqn:E; simpl.
  - apply bool_decide_eq_true in E. now subst.
  - apply app_nil_r.
Qed.

Lemma ensure_terminal_period_result_ends cased shown :
  result (ensure_terminal_period (Some cased)) = Ok shown ->
  shown = [] \/ ends_sentence shown.
Proof.
  destruct (ensure_terminal_period_runs (Some cased)) as (r & t & E & Hrun).
  rewrite E. unfold result. simpl. intros H. injection H as <-.
  destruct (decide (rstrip (or_empty (Some cased)) = [])) as [Hs | Hs].
  - left. rewrite Hs in Hrun.
    inversion Hrun as [H | body c H | body c H | c H
                      | body p c H | body p c H];
      try reflexivity; try discriminate H;
      try (apply app_cons_not_nil in H; contradiction).
  - right. exact (etp_run_ends _ _ _ Hrun Hs).
Qed.

(** With the option on and off the outputs differ in the bullets only. *)
Lemma renders_as_option src d1 :
  renders_as true src d1 ->
  forall d2, renders_as false src d2 ->
    Forall2 (fun p q => p = q
                        \/ (style p = Some (lit "List Bullet 2")
                            /\ style q = Some (lit "List Bullet 2")
                            /\ ind p = ind q))
            d1 d2.
Proof.
  induction 1 as [|para rest out H0 _ IH|para rest out p Hne Hp _ IH];
    intros d2 H2; inversion H2 as [|? ? ? H0' Hrest|? ? ? q Hne' Hq Hrest];
    subst; try contradiction.
  - constructor.
  - now apply IH.
  - constructor; [|constructor; [now left | now apply IH]].
    inversion Hp as [Hk|Hk|c1 s1 Hc1 Hs1 Hk|c1 s1 Hc1 Hs1 Hk];
      rewrite <- Hk in Hq;
      inversion Hq as [Hk'|Hk'|c2 s2 Hc2 Hs2 Hk'|c2 s2 Hc2 Hs2 Hk'];
      subst; try (now left).
    + right. repeat split.
    + left. congruence.
Qed.

End RendersAs.

(** X7: each count is the number of source paragraphs of its level: H2
    counts the paragraphs of level 1, H3 those of level 2, H4 those of
    level 3 and H5 those of level 4. *)
Theorem transform_docx_counts_by_level (U : Unicode)
    (src : list SourceParagraph) (add_period_to_h4 : bool) :
  exists out counts,
    result (transform_docx src add_period_to_h4) = Ok (out, counts)
    /\ counts !! "H2"%string = Some (count_level 1 src)
    /\ counts !! "H3"%string = Some (count_level 2 src)
    /\ counts !! "H4"%string = Some (count_level 3 src)
    /\ counts !! "H5"%string = Some (count_level 4 src).
Proof.
  destruct (transform_docx_run add_period_to_h4 src)
    as (out & counts & Hrun & _ & Hc).
  exists out, counts. split; [exact Hrun |].
  repeat split; apply Hc; unfold level_keys; simpl; auto 6.
Qed.

(** X8: in the output every block is followed by one spacer and nothing
    else is there: the document is its blocks, each with a spacer after
    it, so it has twice as many paragraphs as blocks. *)
Theorem transform_docx_spacers (U : Unicode) (src : list SourceParagraph)
    (add_period_to_h4 : bool) :
  exists out counts,
    result (transform_docx src add_period_to_h4) = Ok (out, counts)
    /\ out = flat_map (fun b => [b; spacer]) (rendered_blocks out)
    /\ len out = 2 * len (rendered_blocks out).
Proof.
  destruct (transform_docx_run add_period_to_h4 src)
    as (out & counts & Hrun & Hd & _).
  exists out, counts. split; [exact Hrun |].
  destruct (renders_as_blocks _ _ _ Hd) as [_ Hflat].
  split; [exact Hflat |].
  rewrite Hflat at 1. generalize (rendered_blocks out). intros blocks.
  induction blocks as [|b blocks IH]; [reflexivity |].
  unfold len in *. simpl. lia.
Qed.

(** X9: the output for two sequences of paragraphs one after the other is
    the output for the first followed by the output for the second, and
    each count is the sum of the two counts: a paragraph is rendered the
    same whatever comes before or after it, and the order is kept. *)
Theorem transform_docx_app (U : Unicode) (src1 src2 : list SourceParagraph)
    (add_period_to_h4 : bool) :
  exists out1 counts1 out2 counts2 counts,
    result (transform_docx src1 add_period_to_h4) = Ok (out1, counts1)
    /\ result (transform_docx src2 add_period_to_h4) = Ok (out2, counts2)
    /\ result (transform_docx (src1 ++ src2) add_period_to_h4)
       = Ok (out1 ++ out2, counts)
    /\ forall k key,
         In (k, key) level_keys ->
         exists v1 v2,
           counts1 !! key = Some v1 /\ counts2 !! key = Some v2
           /\ counts !! key = Some (v1 + v2).
Proof.
  destruct (transform_docx_run add_period_to_h4 src1)
    as (out1 & c1 & Hrun1 & Hd1 & Hc1).
  destruct (transform_docx_run add_period_to_h4 src2)
    as (out2 & c2 & Hrun2 & Hd2 & Hc2).
  destruct (transform_docx_run add_period_to_h4 (src1 ++ src2))
    as (out & c & Hrun & Hd & Hc).
  exists out1, c1, out2, c2, c.
  split; [exact Hrun1 |]. split; [exact Hrun2 |].
  rewrite (renders_as_unique _ _ _ Hd _ (renders_as_app _ _ _ _ _ Hd1 Hd2))
    in Hrun.
  split; [exact Hrun |].
  intros k key Hin. eexists _, _.
  split; [exact (Hc1 k key Hin) |]. split; [exact (Hc2 k key Hin) |].
  rewrite (Hc k key Hin). now rewrite count_level_app.
Qed.

Lemma block_well_laid_out {U : Unicode} flag t k p :
  block_for flag t k p -> well_laid_out p.
Proof.
  intros H. inversion H; subst; unfold well_laid_out; simpl;
    (split; [auto |]); (split; [|auto 6]).
  - repeat constructor.
  - repeat constructor.
  - destruct (bool_decide (shown = [])); repeat constructor.
  - destruct (bool_decide (shown = [])); repeat constructor.
Qed.

(** X10: every block of the output is single spaced with no space before
    or after, has its text in Arial 10, and has no style, the style
    List Bullet 2, or the style H5Subbullet; the indent of 1080 and 360
    twips is on the H5Subbullet blocks and on no other.  The style
    List Bullet is never used. *)
Theorem transform_docx_layout (U : Unicode) (src : list SourceParagraph)
    (add_period_to_h4 : bool) :
  exists out counts,
    result (transform_docx src add_period_to_h4) = Ok (out, counts)
    /\ Forall well_laid_out (rendered_blocks out)
    /\ Forall (fun p => style p <> Some (lit "List Bullet")) out.
Proof.
  destruct (transform_docx_run add_period_to_h4 src)
    as (out & counts & Hrun & Hd & _).
  exists out, counts. split; [exact Hrun |].
  destruct (renders_as_blocks _ _ _ Hd) as [Hblocks Hflat].
  assert (Hlaid : Forall well_laid_out (rendered_blocks out)).
  { clear Hflat. induction Hblocks as [|para p ? ? Hp _ IH]; constructor.
    - exact (block_well_laid_out _ _ _ _ Hp).
    - exact IH. }
  split; [exact Hlaid |].
  rewrite Hflat. clear Hflat Hblocks.
  induction Hlaid as [|p blocks Hp _ IH]; [constructor |].
  simpl. constructor; [|constructor; [discriminate | exact IH]].
  destruct Hp as (_ & _ & [[E _] | [[E _] | [E _]]]); rewrite E;
    discriminate.
Qed.

(** X11: the option changes the List Bullet 2 blocks only: with it on and
    off the counts are the same, and the two outputs have the same
    paragraphs, position by position, except where both have a
    List Bullet 2 block. *)
Theorem transform_docx_option (U : Unicode) (src : list SourceParagraph) :
  exists out_on counts_on out_off counts_off,
    result (transform_docx src true) = Ok (out_on, counts_on)
    /\ result (transform_docx src false) = Ok (out_off, counts_off)
    /\ (forall k key,
          In (k, key) level_keys -> counts_on !! key = counts_off !! key)
    /\ Forall2 (fun p q => p = q
                           \/ (style p = Some (lit "List Bullet 2")
                               /\ style q = Some (lit "List Bullet 2")
                               /\ ind p = ind q))
               out_on out_off.
Proof.
  destruct (transform_docx_run true src) as (o1 & c1 & Hrun1 & Hd1 & Hc1).
  destruct (transform_docx_run false src) as (o2 & c2 & Hrun2 & Hd2 & Hc2).
  exists o1, c1, o2, c2. split; [exact Hrun1 |]. split; [exact Hrun2 |].
  split.
  - intros k key Hin. now rewrite (Hc1 k key Hin), (Hc2 k key Hin).
  - exact (renders_as_option _ _ Hd1 _ Hd2).
Qed.

(** X12: the text of every H5Subbullet block, and with the option on of
    every List Bullet 2 block, is empty or ends with a terminator or with
    a closing quote that follows one. *)
Theorem transform_docx_bullets_end (U : Unicode)
    (src : list SourceParagraph) (add_period_to_h4 : bool) :
  exists out counts,
    result (transform_docx src add_period_to_h4) = Ok (out, counts)
    /\ Forall (fun p =>
                 style p = Some (lit "H5Subbullet")
                 \/ (add_period_to_h4 = true
                     /\ style p = Some (lit "List Bullet 2")) ->
                 paragraph_text p = [] \/ ends_sentence (paragraph_text p))
              out.
Proof.
  destruct (transform_docx_run add_period_to_h4 src)
    as (out & counts & Hrun & Hd & _).
  exists out, counts. split; [exact Hrun |]. clear Hrun.
  induction Hd as [|para rest out H0 _ IH|para rest out p Hne Hp _ IH].
  - constructor.
  - exact IH.
  - constructor; [|constructor; [|exact IH]].
    + inversion Hp as [Hk|Hk|c1 s1 Hc1 Hs1 Hk|c1 s1 Hc1 Hs1 Hk]; subst.
      * intros [E | [_ E]]; discriminate E.
      * intros [E | [_ E]]; discriminate E.
      * intros [E | [-> _]]; [discriminate E |].
        rewrite paragraph_text_bullet.
        now apply (ensure_terminal_period_result_ends c1).
      * intros _. rewrite paragraph_text_bullet.
        now apply (ensure_terminal_period_result_ends c1).
    + intros [E | [_ E]]; discriminate E.
Qed.

(** X13: the blocks of the output are, in source order, those of the
    paragraphs of a level other than 0: for level 1 the upper-cased
    stripped text, bold and underlined; for level 2 the same, underlined
    only; for level 3 a List Bullet 2 paragraph with the sentence case of
    the stripped text, with the terminal period when the option is on; for
    level 4 an H5Subbullet paragraph with the sentence case and the
    terminal period, indented. *)
Theorem transform_docx_blocks (U : Unicode) (src : list SourceParagraph)
    (add_period_to_h4 : bool) :
  exists out counts,
    result (transform_docx src add_period_to_h4) = Ok (out, counts)
    /\ Forall2
         (fun para p =>
            block_for add_period_to_h4 (strip (or_empty (text para)))
                      (level_of para) p)
         (filter (fun para => level_of para <> 0) src)
         (rendered_blocks out).
Proof.
  destruct (transform_docx_run add_period_to_h4 src)
    as (out & counts & Hrun & Hd & _).
  exists out, counts. split; [exact Hrun |].
  exact (proj1 (renders_as_blocks _ _ _ Hd)).
Qed.

(** ** The name of the download and the page *)

Lemma startswith_app (p x : pystr) : startswith (p ++ x) p = true.
Proof.
  induction p as [|b p IH]; [now destruct x |]. simpl.
  now rewrite bool_decide_eq_true_2, IH.
Qed.

Lemma endswith_app (x p : pystr) : endswith (x ++ p) p = true.
Proof. unfold endswith. rewrite rev_app_distr. apply startswith_app. Qed.

(** X14: whatever the uploaded name, the name of the download ends with
    OUTPUT.docx; what comes before is the base name with an underscore, or
    the base name without its last five characters. *)
Theorem out_name_suffix (U : Unicode) (P : OsPath) (uploaded_name : pystr) :
  endswith (out_name uploaded_name) (lit "OUTPUT.docx") = true
  /\ exists stem,
       out_name uploaded_name = stem ++ lit "OUTPUT.docx"
       /\ (stem = rstrip (fst (splitext uploaded_name)) ++ lit "_"
           \/ stem = slice_to (rstrip (fst (splitext uploaded_name))) (-5)).
Proof.
  unfold out_name.
  destruct (endswith (upper (rstrip (fst (splitext uploaded_name))))
                     (lit "INPUT")).
  - split; [apply endswith_app |]. eexists. split; [reflexivity | now right].
  - change (lit "_OUTPUT.docx") with (lit "_" ++ lit "OUTPUT.docx").
    rewrite List.app_assoc. split; [apply endswith_app |].
    eexists. split; [reflexivity | now left].
Qed.

Lemma result_try_except {A} (body : Py A) (handler : exn -> Py A) (a : A) :
  result body = Ok a -> result (try_except body handler) = Ok a.
Proof.
  destruct body as [[a'| |] t]; simpl; intros E; try discriminate.
  exact E.
Qed.

Lemma renders_level {U : Unicode} (para : SourceParagraph) :
  renders para <-> level_of para <> 0.
Proof.
  unfold renders. fold (level_of para). split; [now intros [_ H] |].
  intros H. split; [|exact H]. intros E. apply H. now apply level_of_empty.
Qed.

(** X15: the page never shows an error that comes from the transform.  It
    shows the warning exactly when no source paragraph has a level other
    than 0; otherwise it offers the download, under the derived name, of a
    document that is not empty, with counts whose sum is the number of
    paragraphs of a level other than 0. *)
Theorem page_outcome (U : Unicode) (P : OsPath) (uploaded_name : pystr)
    (src_doc : list SourceParagraph) (add_period_to_h4 : bool) :
  exists shown,
    result (page uploaded_name src_doc add_period_to_h4) = Ok shown
    /\ ((shown = Warning
         /\ Forall (fun para => level_of para = 0) src_doc)
        \/ (exists counts doc,
              shown = Download counts doc (out_name uploaded_name)
              /\ doc <> []
              /\ sum_values counts
                 = len (filter (fun para => level_of para <> 0) src_doc)
              /\ Exists (fun para => level_of para <> 0) src_doc)).
Proof.
  assert (Hinit : state_ok
            ([], <["H2"%string := 0]> (<["H3"%string := 0]>
                   (<["H4"%string := 0]> (<["H5"%string := 0]> ∅)))) 0).
  { split; [reflexivity |]. split; [reflexivity |].
    exists 0, 0, 0, 0. repeat split; reflexivity. }
  destruct (for_each_paragraph_ok add_period_to_h4 src_doc _ 0 Hinit)
    as ([out counts] & Hrun & Hout & Hsum & _).
  simpl in Hout, Hsum. rewrite Z.add_0_l in Hout, Hsum.
  assert (Hsame : filter renders src_doc
                  = filter (fun para => level_of para <> 0) src_doc).
  { apply list_filter_iff. intros para. apply renders_level. }
  rewrite Hsame in Hout, Hsum.
  unfold page.
  exists (if sum_values counts =? 0 then Warning
          else Download counts out (out_name uploaded_name)).
  split.
  { apply result_try_except. unfold transform_docx.
    rewrite (result_bind _ _ _ Hrun). cbv beta iota zeta.
    destruct (sum_values counts =? 0); reflexivity. }
  destruct (sum_values counts =? 0) eqn:Ezero.
  - left. split; [reflexivity |]. apply Z.eqb_eq in Ezero.
    rewrite Hsum in Ezero.
    apply Forall_forall. intros para Hin.
    destruct (decide (level_of para = 0)) as [E | Hne]; [exact E |].
    exfalso.
    assert (Hmem : para ∈ filter (fun para => level_of para <> 0) src_doc).
    { apply list_elem_of_filter. split; [exact Hne | exact Hin]. }
    destruct (filter _ src_doc); [inversion Hmem |].
    unfold len in Ezero. simpl in Ezero. lia.
  - right. apply Z.eqb_neq in Ezero. exists counts, out.
    split; [reflexivity |]. split; [|split; [exact Hsum |]].
    + intros ->. rewrite <- Hout in Hsum. apply Ezero. now rewrite Hsum.
    + rewrite Hsum in Ezero.
      destruct (filter (fun para => level_of para <> 0) src_doc)
        as [|para rest] eqn:Ef; [now contradiction Ezero |].
      assert (Hmem : para ∈ filter (fun para => level_of para <> 0) src_doc)
        by (rewrite Ef; left).
      apply list_elem_of_filter in Hmem as [Hne Hin].
      apply Exists_exists. exists para. split; [exact Hin | exact Hne].
Qed.
